(** * Keyboard-shortcut dispatch: a shallow embedding of
      [src/composables/defineShortcuts.ts], of the hotkeys variant
      (bindings, scoped managers, key sequence detector, conflict detector)
      and of the log helpers of the demo pages.

    Modelling conventions.
    - A JavaScript string is a [string] of one-byte characters, and
      [toLowerCase] is the ASCII case mapping (characters outside [A]-[Z]
      are left as they are): the development speaks about ASCII key names
      and specs.
    - A handler is an opaque callback; it is identified by a number and the
      dispatcher's observable behaviour is the list of actions it performs
      on an event ([preventDefault], then the call of a handler).
    - A JavaScript [Map] is an insertion-ordered association list.
    - The [hotkeys] library is not part of the repository: the calls made
      on it are recorded, in order.
    - Time is an integer number of time units (milliseconds). *)

From Stdlib Require Import Bool Arith List ZArith Lia Ascii String.
Import ListNotations.

Set Implicit Arguments.

Local Open Scope string_scope.
Local Open Scope list_scope.

(* ================================================================== *)
(** * Definitions *)
(* ================================================================== *)

(** ** JavaScript string primitives used by the source *)

Module JsString.

(** [c] is an ASCII capital letter. *)
Definition isUpper (c : ascii) : bool :=
  (Ascii.leb "A" c && Ascii.leb c "Z")%char.

Definition lowerChar (c : ascii) : ascii :=
  if isUpper c then ascii_of_nat (nat_of_ascii c + 32) else c.

(** [String.prototype.toLowerCase]. *)
Fixpoint toLowerCase (s : string) : string :=
  match s with
  | EmptyString => EmptyString
  | String c s' => String (lowerChar c) (toLowerCase s')
  end.

(** [s.startsWith(p)]. *)
Definition startsWith (s p : string) : bool := String.prefix p s.

(** [s.includes(sub)]: [sub] occurs in [s] as a contiguous substring. *)
Fixpoint includes (s sub : string) : bool :=
  if String.prefix sub s then true
  else match s with
       | EmptyString => false
       | String _ s' => includes s' sub
       end.

(** [s.split(sep)] for a one-character separator. *)
Fixpoint split (sep : ascii) (s : string) : list string :=
  match s with
  | EmptyString => [EmptyString]
  | String c s' =>
      if Ascii.eqb c sep then EmptyString :: split sep s'
      else match split sep s' with
           | x :: xs => String c x :: xs
           | [] => [String c EmptyString]
           end
  end.

(** [parts.join(sep)]. *)
Definition join (sep : string) (parts : list string) : string :=
  String.concat sep parts.

(** [arr.includes(x)] on an array of strings. *)
Definition arrayIncludes (arr : list string) (x : string) : bool :=
  existsb (String.eqb x) arr.

(** Every character of [s] satisfies [p]. *)
Fixpoint all (p : ascii -> bool) (s : string) : bool :=
  match s with
  | EmptyString => true
  | String c s' => p c && all p s'
  end.

End JsString.

(** ** Regular expressions, as far as the two shape checks need them *)

Module Regex.

Inductive regex : Type :=
| Empty : regex                      (* matches nothing *)
| Eps : regex                        (* matches the empty string *)
| Class : (ascii -> bool) -> regex   (* one character of a class *)
| Cat : regex -> regex -> regex
| Alt : regex -> regex -> regex
| Star : regex -> regex.

(** [r+] *)
Definition Plus (r : regex) : regex := Cat r (Star r).

(** Line terminators, which [.] does not match. *)
Definition isLineTerminator (c : ascii) : bool :=
  (Ascii.eqb c "010" || Ascii.eqb c "013")%char.

(** [.] *)
Definition dot : regex := Class (fun c => negb (isLineTerminator c)).

(** [[^x]] *)
Definition notChar (x : ascii) : regex := Class (fun c => negb (Ascii.eqb c x)).

(** [x] *)
Definition char (x : ascii) : regex := Class (fun c => Ascii.eqb c x).

Fixpoint nullable (r : regex) : bool :=
  match r with
  | Empty => false
  | Eps => true
  | Class _ => false
  | Cat r1 r2 => nullable r1 && nullable r2
  | Alt r1 r2 => nullable r1 || nullable r2
  | Star _ => true
  end.

(** Derivative of [r] by the character [c]. *)
Fixpoint deriv (c : ascii) (r : regex) : regex :=
  match r with
  | Empty => Empty
  | Eps => Empty
  | Class p => if p c then Eps else Empty
  | Cat r1 r2 =>
      if nullable r1 then Alt (Cat (deriv c r1) r2) (deriv c r2)
      else Cat (deriv c r1) r2
  | Alt r1 r2 => Alt (deriv c r1) (deriv c r2)
  | Star r1 => Cat (deriv c r1) (Star r1)
  end.

(** [/^r$/.test(s)]. *)
Fixpoint test (r : regex) (s : string) : bool :=
  match s with
  | EmptyString => nullable r
  | String c s' => test (deriv c r) s'
  end.

(** The language of a regular expression. *)
Inductive Matches : regex -> string -> Prop :=
| MEps : Matches Eps EmptyString
| MClass : forall p c, p c = true -> Matches (Class p) (String c EmptyString)
| MCat : forall r1 r2 s1 s2,
    Matches r1 s1 -> Matches r2 s2 -> Matches (Cat r1 r2) (s1 ++ s2)
| MAltL : forall r1 r2 s, Matches r1 s -> Matches (Alt r1 r2) s
| MAltR : forall r1 r2 s, Matches r2 s -> Matches (Alt r1 r2) s
| MStar0 : forall r, Matches (Star r) EmptyString
| MStarS : forall r s1 s2,
    Matches r s1 -> Matches (Star r) s2 -> Matches (Star r) (s1 ++ s2).

End Regex.

(** ** JavaScript [Map] with string keys: an insertion-ordered table *)

Module JsMap.
Section WithValue.
Variable V : Type.

Definition t : Type := list (string * V).

Definition empty : t := [].

Fixpoint get (m : t) (k : string) : option V :=
  match m with
  | [] => None
  | (k', v) :: m' => if String.eqb k' k then Some v else get m' k
  end.

Definition has (m : t) (k : string) : bool :=
  match get m k with Some _ => true | None => false end.

(** [m.set(k, v)]: an existing key keeps its position, a new key goes
    to the end. *)
Fixpoint set (m : t) (k : string) (v : V) : t :=
  match m with
  | [] => [(k, v)]
  | (k', v') :: m' =>
      if String.eqb k' k then (k', v) :: m' else (k', v') :: set m' k v
  end.

Definition delete (m : t) (k : string) : t :=
  filter (fun kv => negb (String.eqb (fst kv) k)) m.

Definition keys (m : t) : list string := map fst m.

Definition entries (m : t) : list (string * V) := m.
End WithValue.

Arguments empty {V}.
End JsMap.

(** ** Handlers and the observable actions of the dispatcher *)

(** A handler is an opaque callback, identified by a number. *)
Definition Handler : Type := nat.

(** What the dispatcher does to an event: [e.preventDefault()] and the call
    of a handler with the event. *)
Inductive Action : Type :=
| PreventDefault : Action
| Call : Handler -> Action.

(** The handlers called by a list of actions, in order. *)
Fixpoint invoked (acts : list Action) : list Handler :=
  match acts with
  | [] => []
  | PreventDefault :: acts' => invoked acts'
  | Call h :: acts' => h :: invoked acts'
  end.

(** ** [class ShortcutRegistry] *)

Module ShortcutRegistry.

Record Registration : Type := {
  component : string;
  handler : Handler;
  location : string
}.

(** The private field [registered]. *)
Definition t : Type := JsMap.t Registration.

(** [new ShortcutRegistry()] *)
Definition create : t := JsMap.empty.

(** Whether [register] prints the conflict warning. *)
Definition registerWarns (registered : t) (shortcut : string) : bool :=
  JsMap.has registered shortcut.

Definition register (registered : t) (shortcut : string) (h : Handler)
           (componentName loc : string) : t :=
  JsMap.set registered shortcut
    {| component := componentName; handler := h; location := loc |}.

Definition unregister (registered : t) (shortcut : string) : t :=
  JsMap.delete registered shortcut.

Definition getRegisteredShortcuts (registered : t) : list string :=
  JsMap.keys registered.

Definition isRegistered (registered : t) (shortcut : string) : bool :=
  JsMap.has registered shortcut.

Definition getRegistration (registered : t) (shortcut : string)
  : option Registration :=
  JsMap.get registered shortcut.

(** [checkForDuplicates]: registers every key of a config, in the order of
    [Object.keys]. *)
Definition checkForDuplicates (config : list (string * Handler))
           (componentName loc : string) (registered : t) : t :=
  fold_left
    (fun reg kh => register reg (fst kh) (snd kh) componentName loc)
    config registered.

(** The calls a client can make on the registry, and their effect on it. *)
Inductive Op : Type :=
| Register : string -> Handler -> string -> string -> Op
| Unregister : string -> Op.

Definition apply (registered : t) (op : Op) : t :=
  match op with
  | Register shortcut h componentName loc =>
      register registered shortcut h componentName loc
  | Unregister shortcut => unregister registered shortcut
  end.

(** The registry after a history of calls on a fresh instance. *)
Definition after (ops : list Op) : t := fold_left apply ops create.

(** Number of records stored for a shortcut string. *)
Definition recordsFor (registered : t) (shortcut : string) : nat :=
  List.length (filter (fun kv => String.eqb (fst kv) shortcut) registered).

End ShortcutRegistry.

(** ** [parseShortcut] *)

Record Shortcut : Type := {
  handler : Handler;
  chained : bool;
  key : string;
  ctrlKey : bool;
  metaKey : bool;
  shiftKey : bool;
  altKey : bool
}.

(** [Omit<Shortcut, 'handler' | 'chained'>] *)
Module Base.
Record t : Type := {
  key : string;
  metaKey : bool;
  ctrlKey : bool;
  shiftKey : bool;
  altKey : bool
}.
End Base.

Import Regex.

(** [/^[^-]+.*-.*[^-]+$/] *)
Definition chainedShortcutRegex : regex :=
  Cat (Cat (Cat (Cat (Plus (notChar "-")) (Star dot)) (char "-")) (Star dot))
      (Plus (notChar "-")).

(** [/^[^_]+.*_.*[^_]+$/] *)
Definition combinedShortcutRegex : regex :=
  Cat (Cat (Cat (Cat (Plus (notChar "_")) (Star dot)) (char "_")) (Star dot))
      (Plus (notChar "_")).

Definition modifierTokens : list string :=
  ["meta"; "command"; "ctrl"; "shift"; "alt"; "option"].

(** The object literal bound to [base], for the lowercased spec [k]. *)
Definition parseBase (k : string) (isChained : bool) : Base.t :=
  if isChained then
    {| Base.key := k;
       Base.metaKey := false;
       Base.ctrlKey := false;
       Base.shiftKey := false;
       Base.altKey := false |}
  else
    let p := JsString.split "_" k in
    {| Base.key :=
         JsString.join "_"
           (filter (fun x => negb (JsString.arrayIncludes modifierTokens x)) p);
       Base.metaKey :=
         JsString.arrayIncludes p "meta" || JsString.arrayIncludes p "command";
       Base.ctrlKey := JsString.arrayIncludes p "ctrl";
       Base.shiftKey := JsString.arrayIncludes p "shift";
       Base.altKey :=
         JsString.arrayIncludes p "alt" || JsString.arrayIncludes p "option" |}.

(** The platform step: [if (!macOS && base.metaKey && !base.ctrlKey) ...]. *)
Definition normalizePlatform (macOS : bool) (base : Base.t) : Base.t :=
  if negb macOS && Base.metaKey base && negb (Base.ctrlKey base) then
    {| Base.key := Base.key base;
       Base.metaKey := false;
       Base.ctrlKey := true;
       Base.shiftKey := Base.shiftKey base;
       Base.altKey := Base.altKey base |}
  else base.

(** Whether the lowercased spec [k] takes the chained grammar. *)
Definition isChainedSpec (k : string) : bool :=
  JsString.includes k "-" && negb (JsString.includes k "_").

(** Whether the lowercased spec [k] takes the combined grammar. *)
Definition isCombinedSpec (k : string) : bool :=
  JsString.includes k "_".

Definition parseShortcut (spec : string) (h : Handler) (macOS : bool)
  : option Shortcut :=
  let k := JsString.toLowerCase spec in
  let isChained := isChainedSpec k in
  let combined := isCombinedSpec k in
  if isChained && negb (test chainedShortcutRegex k) then None
  else if combined && negb (test combinedShortcutRegex k) then None
  else
    let base := normalizePlatform macOS (parseBase k isChained) in
    Some {| handler := h;
            chained := isChained;
            key := Base.key base;
            ctrlKey := Base.ctrlKey base;
            metaKey := Base.metaKey base;
            shiftKey := Base.shiftKey base;
            altKey := Base.altKey base |}.

(** The [reduce] that builds [shortcuts] from [Object.entries(configValue)]. *)
Definition parseConfig (config : list (string * Handler)) (macOS : bool)
  : list Shortcut :=
  fold_left
    (fun acc kh =>
       match parseShortcut (fst kh) (snd kh) macOS with
       | Some s => acc ++ [s]
       | None => acc
       end)
    config [].

(** The shape the specification gives for a chained spec: exactly two
    non-empty hyphen-free segments joined by one hyphen. *)
Definition twoSegmentShape (k : string) : bool :=
  match JsString.split "-" k with
  | [a; b] => negb (String.eqb a "") && negb (String.eqb b "")
  | _ => false
  end.

(** The shape [chainedShortcutRegex] describes: a non-empty hyphen-free
    head, a hyphen, a non-empty hyphen-free tail, and between each of them
    and the hyphen any characters other than line terminators. *)
Definition chainedRegexShape (k : string) : Prop :=
  exists x y z w : string,
    k = (x ++ y ++ "-" ++ z ++ w)%string
    /\ x <> "" /\ JsString.includes x "-" = false
    /\ JsString.all (fun c => negb (isLineTerminator c)) y = true
    /\ JsString.all (fun c => negb (isLineTerminator c)) z = true
    /\ w <> "" /\ JsString.includes w "-" = false.

(** ** Keyboard events and the focused element *)

Inductive EventType : Type := keydown | keyup.

Module KeyboardEvent.
Record t : Type := {
  type : EventType;
  key : string;
  ctrlKey : bool;
  metaKey : bool;
  shiftKey : bool;
  altKey : bool
}.
End KeyboardEvent.

(** What the typing guard reads of [activeElement.value]. *)
Record Element : Type := {
  tagName : string;
  isContentEditable : bool
}.

(** The specification's text-entry targets: a text input, a text area or a
    content-editable element. *)
Definition TextEntry (el : Element) : Prop :=
  JsString.toLowerCase (tagName el) = "input"
  \/ JsString.toLowerCase (tagName el) = "textarea"
  \/ isContentEditable el = true.

(** One delivery of the event source: the event, the time it arrives and the
    element that has the focus then ([None]: no active element). *)
Record Input : Type := {
  now : Z;
  activeElement : option Element;
  event : KeyboardEvent.t
}.

(** The mutable state of one [defineShortcuts] call: the chain history and
    the deadline of the pending debounce timer, if one is pending. *)
Record State : Type := {
  history : list string;
  timer : option Z
}.

Definition initialState : State := {| history := []; timer := None |}.

(** ** [defineShortcuts] *)

Section DefineShortcuts.

(** The parsed shortcuts and the two options of the call. *)
Variable shortcuts : list Shortcut.
Variable chainDelay : Z.
Variable disableOnInputs : bool.

(** The computed [isTyping]. *)
Definition isTyping (active : option Element) : bool :=
  if negb disableOnInputs then false
  else
    match active with
    | None => false
    | Some el =>
        let tag := JsString.toLowerCase (tagName el) in
        String.eqb tag "input" || String.eqb tag "textarea"
        || isContentEditable el
    end.

(** [history.length = 0] *)
Definition resetHistory (st : State) : State :=
  {| history := []; timer := timer st |}.

(** [debouncedReset()] called at time [t].  [useDebounceFn] is VueUse's; by
    its contract a call drops the pending timer, runs the wrapped
    [resetHistory] at once when the delay is not positive, and otherwise
    schedules it [chainDelay] later. *)
Definition debouncedReset (t : Z) (st : State) : State :=
  if (chainDelay <=? 0)%Z then {| history := []; timer := None |}
  else {| history := history st; timer := Some (t + chainDelay)%Z |}.

(** The event loop runs a timer that is due before it delivers an event;
    the scheduled callback is [resetHistory]. *)
Definition fireTimer (t : Z) (st : State) : State :=
  match timer st with
  | Some deadline =>
      if (deadline <=? t)%Z then {| history := []; timer := None |} else st
  | None => st
  end.

(** The predicate of the [find] in [matchChained]. *)
Definition chainedMatches (hist : list string) (k : string) (s : Shortcut) : bool :=
  chained s && String.eqb (key s) (last hist "" ++ "-" ++ k).

Definition matchChained (hist : list string) (k : string) : option Handler :=
  match hist with
  | [] => None
  | _ :: _ => option_map handler (find (chainedMatches hist k) shortcuts)
  end.

(** The predicate of the [find] in [matchCombined]. *)
Definition combinedMatches (e : KeyboardEvent.t) (s : Shortcut) : bool :=
  negb (chained s)
  && String.eqb (key s) (JsString.toLowerCase (KeyboardEvent.key e))
  && Bool.eqb (ctrlKey s) (KeyboardEvent.ctrlKey e)
  && Bool.eqb (metaKey s) (KeyboardEvent.metaKey e)
  && Bool.eqb (shiftKey s) (KeyboardEvent.shiftKey e)
  && Bool.eqb (altKey s) (KeyboardEvent.altKey e).

Definition matchCombined (e : KeyboardEvent.t) : option Handler :=
  option_map handler (find (combinedMatches e) shortcuts).

(** The test of [onEventFired]: the key occurs in some chained pattern. *)
Definition keyInSomeChain (k : string) : bool :=
  existsb (fun s => chained s && JsString.includes (key s) k) shortcuts.

(** The test of [onKeyDown]: the key can start or continue some chain. *)
Definition keyBuildsChain (k : string) : bool :=
  existsb (fun s =>
             chained s
             && (JsString.startsWith (key s) k
                 || JsString.includes (key s) ("-" ++ k)))
          shortcuts.

(** The [onEventFired] callback given to [useMagicKeys]. *)
Definition onEventFired (typing : bool) (e : KeyboardEvent.t) (st : State)
  : list Action * State :=
  if typing || match KeyboardEvent.type e with keydown => false | keyup => true end
  then ([], st)
  else
    let k := JsString.toLowerCase (KeyboardEvent.key e) in
    if keyInSomeChain k then ([], st)
    else
      match matchCombined e with
      | Some combinedHandler =>
          ([PreventDefault; Call combinedHandler], resetHistory st)
      | None => ([], st)
      end.

(** The [keydown] listener. *)
Definition onKeyDown (typing : bool) (t : Z) (e : KeyboardEvent.t) (st : State)
  : list Action * State :=
  if String.eqb (KeyboardEvent.key e) "" then ([], st)
  else if typing then ([], st)
  else
    let k := JsString.toLowerCase (KeyboardEvent.key e) in
    match matchChained (history st) k with
    | Some chainedHandler =>
        ([PreventDefault; Call chainedHandler], resetHistory st)
    | None =>
        if keyBuildsChain k then
          ([], debouncedReset t
                 {| history := history st ++ [k]; timer := timer st |})
        else ([], st)
    end.

(** One event delivered to the two listeners, in the order they were
    installed: [useMagicKeys] first (key down and key up), then the
    [keydown] listener. *)
Definition dispatch (i : Input) (st : State) : list Action * State :=
  let st0 := fireTimer (now i) st in
  let typing := isTyping (activeElement i) in
  let r1 := onEventFired typing (event i) st0 in
  let r2 :=
    match KeyboardEvent.type (event i) with
    | keydown => onKeyDown typing (now i) (event i) (snd r1)
    | keyup => ([], snd r1)
    end in
  (fst r1 ++ fst r2, snd r2).

(** A stream of deliveries. *)
Fixpoint run (inputs : list Input) (st : State) : list Action * State :=
  match inputs with
  | [] => ([], st)
  | i :: rest =>
      let r := dispatch i st in
      let r' := run rest (snd r) in
      (fst r ++ fst r', snd r')
  end.

End DefineShortcuts.

(** [defineShortcuts(config, { chainDelay, disableOnInputs })] on a platform:
    what the two listeners it installs do with a stream of deliveries.
    [config] lists [Object.entries(configValue)]. *)
Definition defineShortcuts (config : list (string * Handler))
           (chainDelay : Z) (disableOnInputs macOS : bool)
           (inputs : list Input) : list Action * State :=
  run (parseConfig config macOS) chainDelay disableOnInputs inputs initialState.

(** A key press without modifiers. *)
Definition press (k : string) : KeyboardEvent.t :=
  {| KeyboardEvent.type := keydown;
     KeyboardEvent.key := k;
     KeyboardEvent.ctrlKey := false;
     KeyboardEvent.metaKey := false;
     KeyboardEvent.shiftKey := false;
     KeyboardEvent.altKey := false |}.

(** A delivery at time [t] while nothing has the focus. *)
Definition at_time (t : Z) (e : KeyboardEvent.t) : Input :=
  {| now := t; activeElement := None; event := e |}.

(** ** [createHotkeyConflictDetector] *)

Module HotkeyConflictDetector.

Record Owner : Type := {
  scope : string;
  component : string
}.

(** The table [registeredKeys]. *)
Definition t : Type := JsMap.t Owner.

Definition create : t := JsMap.empty.

(** Whether [register] prints the conflict warning. *)
Definition registerWarns (registeredKeys : t) (k sc : string) : bool :=
  match JsMap.get registeredKeys k with
  | Some existing => String.eqb (scope existing) sc
  | None => false
  end.

Definition register (registeredKeys : t) (k sc comp : string) : t :=
  JsMap.set registeredKeys k {| scope := sc; component := comp |}.

Definition unregister (registeredKeys : t) (k : string) : t :=
  JsMap.delete registeredKeys k.

(** The first [forEach] of [getConflicts]: one step of the grouping. *)
Definition addToGroup (keyGroups : JsMap.t (list Owner))
           (entry : string * Owner) : JsMap.t (list Owner) :=
  let k := fst entry in
  let groups :=
    if negb (JsMap.has keyGroups k) then JsMap.set keyGroups k []
    else keyGroups in
  match JsMap.get groups k with
  | Some components => JsMap.set groups k (components ++ [snd entry])
  | None => groups
  end.

(** The second [forEach]: a group of more than one owner is a conflict. *)
Definition addConflict (conflicts : JsMap.t (list Owner))
           (group : string * list Owner) : JsMap.t (list Owner) :=
  if (1 <? List.length (snd group))%nat
  then JsMap.set conflicts (fst group) (snd group)
  else conflicts.

Definition getConflicts (registeredKeys : t) : JsMap.t (list Owner) :=
  let keyGroups :=
    fold_left addToGroup (JsMap.entries registeredKeys) JsMap.empty in
  fold_left addConflict (JsMap.entries keyGroups) JsMap.empty.

(** Every group holds at most one owner. *)
Definition small (groups : JsMap.t (list Owner)) : Prop :=
  Forall (fun kv => List.length (snd kv) <= 1) groups.

Definition getAllRegistered (registeredKeys : t) : list (string * Owner) :=
  JsMap.entries registeredKeys.

Inductive Op : Type :=
| Register : string -> string -> string -> Op
| Unregister : string -> Op.

Definition apply (registeredKeys : t) (op : Op) : t :=
  match op with
  | Register k sc comp => register registeredKeys k sc comp
  | Unregister k => unregister registeredKeys k
  end.

(** The table after a history of calls on a fresh detector. *)
Definition after (ops : list Op) : t := fold_left apply ops create.

End HotkeyConflictDetector.

(** ** The rest of [defineShortcuts.ts]: call location, platform *)

(** White space as [trim] and [\s] see it, among ASCII characters. *)
Definition isWhitespace (c : ascii) : bool :=
  (Ascii.eqb c "009" || Ascii.eqb c "010" || Ascii.eqb c "011"
   || Ascii.eqb c "012" || Ascii.eqb c "013" || Ascii.eqb c " ")%char.

(** [s.trimStart()] *)
Fixpoint trimStart (s : string) : string :=
  match s with
  | EmptyString => EmptyString
  | String c s' => if isWhitespace c then trimStart s' else s
  end.

(** [s.trimEnd()] *)
Fixpoint trimEnd (s : string) : string :=
  match s with
  | EmptyString => EmptyString
  | String c s' =>
      match trimEnd s' with
      | EmptyString => if isWhitespace c then EmptyString else String c EmptyString
      | String c' r => String c (String c' r)
      end
  end.

(** [s.trim()] *)
Definition trim (s : string) : string := trimEnd (trimStart s).

(** [s.replace(/^at\s+/, '')] *)
Definition stripAt (s : string) : string :=
  match s with
  | String "a" (String "t" (String c rest)) =>
      if isWhitespace c then trimStart rest else s
  | _ => s
  end.

(** The test of the loop of [getCallLocation] on one line of the stack. *)
Definition outsideThisFile (line : string) : bool :=
  negb (String.eqb line "") && negb (JsString.includes line "defineShortcuts.ts").

(** [getCallLocation], as a function of [new Error(...).stack]
    ([None]: the engine gives no stack). *)
Definition getCallLocation (stack : option string) : string :=
  match stack with
  | None => "Unknown location"
  | Some text =>
      if String.eqb text "" then "Unknown location"
      else
        match find outsideThisFile (skipn 2 (JsString.split "010" text)) with
        | Some line => stripAt (trim line)
        | None => "Unknown location"
        end
  end.

(** ** Notions used to state further properties of the parser and of the
    dispatcher *)

(** The shape [combinedShortcutRegex] describes: a non-empty head without
    underscore, an underscore, a non-empty tail without underscore, and
    between each of them and the underscore any characters other than line
    terminators. *)
Definition combinedRegexShape (k : string) : Prop :=
  exists x y z w : string,
    k = (x ++ y ++ "_" ++ z ++ w)%string
    /\ x <> "" /\ JsString.includes x "_" = false
    /\ JsString.all (fun c => negb (isLineTerminator c)) y = true
    /\ JsString.all (fun c => negb (isLineTerminator c)) z = true
    /\ w <> "" /\ JsString.includes w "_" = false.

(** A key name as the keyboard gives it: it contains no hyphen, or it is the
    hyphen key itself. *)
Definition plainKey (k : string) : Prop :=
  JsString.includes k "-" = false \/ k = "-".

(** What the two matchers read of a shortcut. *)
Definition signature (s : Shortcut) : bool * string * (bool * bool * bool * bool) :=
  (chained s, key s, (ctrlKey s, metaKey s, shiftKey s, altKey s)).

(** The events of a stream that are key presses. *)
Definition keydownsOnly (inputs : list Input) : list Input :=
  filter (fun i => match KeyboardEvent.type (event i) with
                   | keydown => true
                   | keyup => false
                   end) inputs.

(** The deliveries of a stream arrive in the order of their times. *)
Fixpoint timeOrdered (inputs : list Input) : Prop :=
  match inputs with
  | [] => True
  | i :: rest =>
      Forall (fun j => (now i <= now j)%Z) rest /\ timeOrdered rest
  end.

(** ** JavaScript [Set] of strings: insertion-ordered, without repetition *)

Module JsSet.
Definition t : Type := list string.
Definition empty : t := [].
Definition has (s : t) (x : string) : bool := existsb (String.eqb x) s.
Definition add (s : t) (x : string) : t := if has s x then s else s ++ [x].
End JsSet.

(** ** The calls made on the [hotkeys] library *)

Module Hotkeys.

Inductive Call : Type :=
| SetScope : string -> Call                      (* hotkeys.setScope(scope) *)
| Bind : string -> string -> Handler -> Call     (* hotkeys(key, { scope }, handler) *)
| Unbind : string -> string -> Call              (* hotkeys.unbind(key, scope) *)
| DeleteScope : string -> Call.                  (* hotkeys.deleteScope(scope) *)

(** Whether, among the calls that bind or unbind [k] in scope [sc], the
    last one is a binding ([start]: the answer before the first call). *)
Fixpoint lastIsBind (calls : list Call) (k sc : string) (start : bool) : bool :=
  match calls with
  | [] => start
  | Bind k' sc' _ :: rest =>
      if String.eqb k' k && String.eqb sc' sc then lastIsBind rest k sc true
      else lastIsBind rest k sc start
  | Unbind k' sc' :: rest =>
      if String.eqb k' k && String.eqb sc' sc then lastIsBind rest k sc false
      else lastIsBind rest k sc start
  | _ :: rest => lastIsBind rest k sc start
  end.

(** The key [k] is left bound in scope [sc] by a history of calls. *)
Definition leftBound (calls : list Call) (k sc : string) : bool :=
  lastIsBind calls k sc false.

End Hotkeys.

(** ** [defineShortcuts] of the hotkeys variant *)

Module HotkeysVariant.
Import Hotkeys.

(** The variables [currentScope] and [boundKeys] of one call. *)
Record State : Type := {
  currentScope : string;
  boundKeys : JsSet.t
}.

(** The state a call starts with, for the option [scope]. *)
Definition initial (scope : string) : State :=
  {| currentScope := scope; boundKeys := JsSet.empty |}.

Section Filter.
(** The events the filter is given, and their [target] ([None]: null). *)
Variable Event : Type.
Variable target : Event -> option Element.

(** The filter that [setupHotkeys] installs when [disableOnInputs] is set;
    [custom] is the option [filter].  The result [None] stands for the
    [TypeError] of reading [isContentEditable] of a null target. *)
Definition inputsFilter (custom : option (Event -> bool)) (e : Event)
  : option bool :=
  match target e with
  | None => None
  | Some el =>
      let isInput :=
        String.eqb (tagName el) "INPUT" || String.eqb (tagName el) "TEXTAREA"
        || isContentEditable el in
      match custom with
      | Some f => Some (negb isInput && f e)
      | None => Some (negb isInput)
      end
  end.

(** The value [setupHotkeys] gives to [hotkeys.filter] ([None]: it leaves
    the library's own filter in place). *)
Definition installedFilter (disableOnInputs : bool)
           (custom : option (Event -> bool)) : option (Event -> option bool) :=
  if disableOnInputs then Some (inputsFilter custom)
  else option_map (fun f e => Some (f e)) custom.
End Filter.

Definition unbindAll (st : State) : list Call * State :=
  (map (fun k => Unbind k (currentScope st)) (boundKeys st),
   {| currentScope := currentScope st; boundKeys := JsSet.empty |}).

(** The body of the [forEach] of [bindShortcuts]. *)
Definition bindOne (acc : list Call * State) (kh : string * Handler)
  : list Call * State :=
  (fst acc ++ [Bind (fst kh) (currentScope (snd acc)) (snd kh)],
   {| currentScope := currentScope (snd acc);
      boundKeys := JsSet.add (boundKeys (snd acc)) (fst kh) |}).

(** [bindShortcuts(config)]; [config] lists [Object.entries(config)]. *)
Definition bindShortcuts (config : list (string * Handler)) (st : State)
  : list Call * State :=
  fold_left bindOne config (unbindAll st).

(** [changeScope(newScope)], [config] being the value of [shortcuts] then. *)
Definition changeScope (newScope : string) (config : list (string * Handler))
           (st : State) : list Call * State :=
  let r := bindShortcuts config
             {| currentScope := newScope; boundKeys := boundKeys st |} in
  (SetScope newScope :: fst r, snd r).

(** What a component does with its shortcuts after it is mounted. *)
Inductive Op : Type :=
| Rebind : list (string * Handler) -> Op      (* the watcher of [shortcuts] *)
| ChangeScope : string -> list (string * Handler) -> Op
| UnbindAll : Op.

Definition apply (acc : list Call * State) (op : Op) : list Call * State :=
  let r :=
    match op with
    | Rebind config => bindShortcuts config (snd acc)
    | ChangeScope newScope config => changeScope newScope config (snd acc)
    | UnbindAll => unbindAll (snd acc)
    end in
  (fst acc ++ fst r, snd r).

(** The [onMounted] hook: [setupHotkeys()] then [bindShortcuts(...)]. *)
Definition mount (scope : string) (config : list (string * Handler))
  : list Call * State :=
  let r := bindShortcuts config (initial scope) in
  (SetScope scope :: fst r, snd r).

(** A component's life: mounted, then [ops], then the [onBeforeUnmount]
    hook, which calls [unbindAll]. *)
Definition lifeCycle (scope : string) (config : list (string * Handler))
           (ops : list Op) : list Call * State :=
  apply (fold_left apply ops (mount scope config)) UnbindAll.

End HotkeysVariant.

(** ** [createScopedHotkeys] *)

Module ScopedHotkeys.
Import Hotkeys.

(** The table [shortcuts] of one manager. *)
Definition t : Type := JsMap.t Handler.

Definition create : t := JsMap.empty.

Section Manager.
Variable scopeName : string.

Definition bind (shortcuts : t) (k : string) (h : Handler) : list Call * t :=
  ([Bind k scopeName h], JsMap.set shortcuts k h).

Definition unbind (shortcuts : t) (k : string) : list Call * t :=
  ([Unbind k scopeName], JsMap.delete shortcuts k).

Definition activate (shortcuts : t) : list Call * t :=
  ([SetScope scopeName], shortcuts).

Definition deactivate (shortcuts : t) : list Call * t :=
  ([SetScope "all"], shortcuts).

Definition destroy (shortcuts : t) : list Call * t :=
  (map (fun kv => Unbind (fst kv) scopeName) (JsMap.entries shortcuts)
   ++ [DeleteScope scopeName],
   JsMap.empty).

Definition getShortcuts (shortcuts : t) : list string := JsMap.keys shortcuts.

Inductive Op : Type :=
| DoBind : string -> Handler -> Op
| DoUnbind : string -> Op
| DoActivate : Op
| DoDeactivate : Op.

Definition apply (acc : list Call * t) (op : Op) : list Call * t :=
  let r :=
    match op with
    | DoBind k h => bind (snd acc) k h
    | DoUnbind k => unbind (snd acc) k
    | DoActivate => activate (snd acc)
    | DoDeactivate => deactivate (snd acc)
    end in
  (fst acc ++ fst r, snd r).

(** The calls and the table after a history of operations on a fresh
    manager. *)
Definition after (ops : list Op) : list Call * t :=
  fold_left apply ops ([], create).

(** A manager's life: a history of operations, then [destroy]. *)
Definition lifeCycle (ops : list Op) : list Call * t :=
  let acc := after ops in
  let r := destroy (snd acc) in
  (fst acc ++ fst r, snd r).
End Manager.

End ScopedHotkeys.

(** ** [createKeySequenceDetector] *)

Module KeySequenceDetector.

(** The variables [currentIndex] and [timer]; a pending timer is its
    deadline. *)
Record State : Type := {
  currentIndex : nat;
  timer : option Z
}.

Definition initial : State := {| currentIndex := 0; timer := None |}.

Section Detector.
Variable sequence : list string.
Variable timeout : Z.
Variable reset : bool.

Definition resetSequence (st : State) : State :=
  {| currentIndex := 0; timer := None |}.

(** The event loop runs a timer that is due before it delivers an event;
    the scheduled callback is [resetSequence]. *)
Definition fireTimer (t : Z) (st : State) : State :=
  match timer st with
  | Some deadline => if (deadline <=? t)%Z then resetSequence st else st
  | None => st
  end.

(** [key === sequence[currentIndex]] *)
Definition expects (st : State) (k : string) : bool :=
  match nth_error sequence (currentIndex st) with
  | Some x => String.eqb k x
  | None => false
  end.

(** The listener [handler], run at time [t]: whether it calls [callback],
    and the state it leaves. *)
Definition handler (t : Z) (e : KeyboardEvent.t) (st : State) : bool * State :=
  let k := JsString.toLowerCase (KeyboardEvent.key e) in
  if expects st k then
    let next := S (currentIndex st) in
    if Nat.eqb next (List.length sequence) then
      (true,
       if reset then resetSequence st
       else {| currentIndex := next; timer := timer st |})
    else
      (false, {| currentIndex := next; timer := Some (t + timeout)%Z |})
  else (false, resetSequence st).

(** One key press delivered at time [t]. *)
Definition deliver (t : Z) (e : KeyboardEvent.t) (st : State) : bool * State :=
  handler t e (fireTimer t st).

(** A stream of key presses with their times: for each one whether the
    callback was called, and the final state. *)
Fixpoint run (events : list (Z * KeyboardEvent.t)) (st : State)
  : list bool * State :=
  match events with
  | [] => ([], st)
  | (t, e) :: rest =>
      let r := deliver t e st in
      let r' := run rest (snd r) in
      (fst r :: fst r', snd r')
  end.

(** Every key press after the first comes less than [timeout] after the
    one before it ([t0]: the time of the press before the stream). *)
Fixpoint paced (t0 : Z) (events : list (Z * KeyboardEvent.t)) : Prop :=
  match events with
  | [] => True
  | (t, _) :: rest => (t < t0 + timeout)%Z /\ paced t rest
  end.
End Detector.

(** Number of calls of the callback. *)
Definition calls (fired : list bool) : nat := count_occ Bool.bool_dec fired true.

(** The keys of a stream, lowercased. *)
Definition typed (events : list (Z * KeyboardEvent.t)) : list string :=
  map (fun te => JsString.toLowerCase (KeyboardEvent.key (snd te))) events.

End KeySequenceDetector.

(** ** The logs of the demo pages *)

Module Pages.

(** [pages/index.vue]: the refs [actions] and [lastTriggered]. *)
Record IndexState : Type := {
  actions : list string;
  lastTriggered : string
}.

(** [addAction(action)]; [stamp] is [new Date().toLocaleTimeString()]. *)
Definition addAction (st : IndexState) (stamp action : string) : IndexState :=
  let unshifted := (stamp ++ ": " ++ action)%string :: actions st in
  {| actions := if (5 <? List.length unshifted)%nat
                then removelast unshifted else unshifted;
     lastTriggered := action |}.

(** The hotkeys demo page: the refs [logs] and [message]. *)
Record DemoState : Type := {
  logs : list string;
  message : string
}.

(** [log(text)]; [stamp] is [new Date().toLocaleTimeString()]. *)
Definition log (st : DemoState) (stamp text : string) : DemoState :=
  let unshifted := (stamp ++ ": " ++ text)%string :: logs st in
  {| logs := if (10 <? List.length unshifted)%nat
             then removelast unshifted else unshifted;
     message := text |}.

(** The line a page shows for an entry. *)
Definition line (entry : string * string) : string :=
  (fst entry ++ ": " ++ snd entry)%string.

End Pages.

(* ================================================================== *)
(** * Properties *)
(* ================================================================== *)

Unset Implicit Arguments.

(** ** Strings *)

Module StringFacts.
Import JsString.

Lemma append_nil_r (s : string) : (s ++ "")%string = s.
Proof. induction s as [|c s IH]; simpl; [reflexivity | now rewrite IH]. Qed.

Lemma append_assoc (s1 s2 s3 : string) :
  ((s1 ++ s2) ++ s3)%string = (s1 ++ (s2 ++ s3))%string.
Proof. induction s1 as [|c s1 IH]; simpl; [reflexivity | now rewrite IH]. Qed.

Lemma append_eq_nil (s1 s2 : string) :
  (s1 ++ s2)%string = "" -> s1 = "" /\ s2 = "".
Proof. destruct s1; simpl; [auto | discriminate]. Qed.

(** A string that starts with [c] and is split in two: either the first
    part is empty or it starts with [c]. *)
Lemma append_eq_cons (c : ascii) (s s1 s2 : string) :
  (s1 ++ s2)%string = String c s ->
  (s1 = "" /\ s2 = String c s)
  \/ exists s1', s1 = String c s1' /\ s = (s1' ++ s2)%string.
Proof.
  destruct s1 as [|c1 s1]; simpl; intros H.
  - left; auto.
  - right. injection H as -> <-. now exists s1.
Qed.

Lemma all_append (p : ascii -> bool) (s1 s2 : string) :
  all p (s1 ++ s2) = all p s1 && all p s2.
Proof.
  induction s1 as [|c s1 IH]; simpl; [reflexivity|].
  now rewrite IH, andb_assoc.
Qed.

Lemma prefix_nil (s : string) : String.prefix "" s = true.
Proof. now destruct s. Qed.

Lemma prefix_append (p s : string) : String.prefix p (p ++ s) = true.
Proof.
  induction p as [|c p IH]; simpl; [apply prefix_nil|].
  destruct (ascii_dec c c); [exact IH | congruence].
Qed.

Lemma prefix_refl (s : string) : String.prefix s s = true.
Proof. rewrite <- (append_nil_r s) at 2. apply prefix_append. Qed.

(** A one-character needle: [includes] is a search for that character. *)
Lemma includes_char (c : ascii) (s : string) :
  includes s (String c "") = negb (all (fun a => negb (Ascii.eqb a c)) s).
Proof.
  induction s as [|a s IH]; simpl; [reflexivity|].
  destruct (ascii_dec c a) as [->|Hne].
  - now rewrite prefix_nil, Ascii.eqb_refl.
  - rewrite IH. apply not_eq_sym in Hne.
    apply Ascii.eqb_neq in Hne. now rewrite Hne.
Qed.


Lemma includes_eq (s sub : string) :
  includes s sub =
  if String.prefix sub s then true
  else match s with
       | EmptyString => false
       | String _ s' => includes s' sub
       end.
Proof. destruct s; reflexivity. Qed.

Lemma includes_self (s : string) : includes s s = true.
Proof. rewrite includes_eq. now rewrite prefix_refl. Qed.

(** [sub] occurs in [l ++ sub ++ r]. *)
Lemma includes_append (l sub r : string) :
  includes (l ++ sub ++ r) sub = true.
Proof.
  induction l as [|c l IH].
  - rewrite includes_eq. simpl append. now rewrite prefix_append.
  - rewrite includes_eq. simpl append.
    destruct (String.prefix sub _); [reflexivity | exact IH].
Qed.

Lemma prefix_split (p s : string) :
  String.prefix p s = true -> exists r, s = (p ++ r)%string.
Proof.
  revert s. induction p as [|c p IH]; intros s H.
  - now exists s.
  - destruct s as [|a s]; simpl in H; [discriminate|].
    destruct (ascii_dec c a) as [->|]; [|discriminate].
    destruct (IH _ H) as [r ->]. now exists r.
Qed.

Lemma includes_split (s sub : string) :
  includes s sub = true -> exists l r, s = (l ++ sub ++ r)%string.
Proof.
  induction s as [|c s IH]; rewrite includes_eq;
    destruct (String.prefix sub _) eqn:P; intros H; try discriminate.
  - destruct (prefix_split _ _ P) as [r ->]. now exists "", r.
  - destruct (prefix_split _ _ P) as [r ->]. now exists "", r.
  - destruct (IH H) as (l & r & ->). now exists (String c l), r.
Qed.

(** Lowercasing neither creates nor removes a hyphen or an underscore. *)
Lemma lowerChar_hyphen (c : ascii) :
  Ascii.eqb (lowerChar c) "-" = Ascii.eqb c "-".
Proof. destruct c as [[] [] [] [] [] [] [] []]; reflexivity. Qed.

Lemma lowerChar_underscore (c : ascii) :
  Ascii.eqb (lowerChar c) "_" = Ascii.eqb c "_".
Proof. destruct c as [[] [] [] [] [] [] [] []]; reflexivity. Qed.

Lemma lowerChar_idem (c : ascii) : lowerChar (lowerChar c) = lowerChar c.
Proof. destruct c as [[] [] [] [] [] [] [] []]; reflexivity. Qed.

Lemma toLowerCase_idem (s : string) : toLowerCase (toLowerCase s) = toLowerCase s.
Proof.
  induction s as [|c s IH]; simpl; [reflexivity|].
  now rewrite lowerChar_idem, IH.
Qed.

Lemma toLowerCase_nil (s : string) : toLowerCase s = "" -> s = "".
Proof. destruct s; simpl; [reflexivity | discriminate]. Qed.

Lemma includes_hyphen_lower (s : string) :
  includes (toLowerCase s) "-" = includes s "-".
Proof.
  rewrite !includes_char. f_equal.
  induction s as [|c s IH]; simpl; [reflexivity|].
  now rewrite lowerChar_hyphen, IH.
Qed.

Lemma includes_underscore_lower (s : string) :
  includes (toLowerCase s) "_" = includes s "_".
Proof.
  rewrite !includes_char. f_equal.
  induction s as [|c s IH]; simpl; [reflexivity|].
  now rewrite lowerChar_underscore, IH.
Qed.

(** Without the separator there is nothing to split. *)
Lemma split_no_sep (sep : ascii) (s : string) :
  includes s (String sep "") = false -> split sep s = [s].
Proof.
  rewrite includes_char. intros H. apply negb_false_iff in H.
  induction s as [|c s IH]; simpl in *; [reflexivity|].
  apply andb_true_iff in H as [Hc Hs].
  apply negb_true_iff in Hc. rewrite Hc, (IH Hs). reflexivity.
Qed.

End StringFacts.

(** ** The regular-expression matcher decides the language *)

Module RegexFacts.
Import JsString StringFacts.

Lemma nullable_Matches (r : regex) : nullable r = true <-> Matches r "".
Proof.
  induction r as [| |p|r1 IH1 r2 IH2|r1 IH1 r2 IH2|r IH]; simpl.
  - split; [discriminate | intros H; inversion H].
  - split; [constructor | reflexivity].
  - split; [discriminate | intros H; inversion H].
  - rewrite andb_true_iff, IH1, IH2. split.
    + intros [H1 H2]. change "" with ("" ++ "")%string. now constructor.
    + intros H. inversion H as [| |? ? s1 s2 H1 H2 E1 E2| | | |]; subst.
      apply append_eq_nil in E2 as [-> ->]. auto.
  - rewrite orb_true_iff, IH1, IH2. split.
    + intros [H|H]; [now apply MAltL | now apply MAltR].
    + intros H. inversion H; subst; auto.
  - split; [constructor | reflexivity].
Qed.

(** A non-empty word of [r*] starts with a non-empty word of [r]. *)
Lemma Matches_Star_cons (r : regex) (c : ascii) (s : string) :
  Matches (Star r) (String c s) ->
  exists s1 s2, s = (s1 ++ s2)%string
                /\ Matches r (String c s1) /\ Matches (Star r) s2.
Proof.
  intros H. remember (Star r) as r' eqn:Er. remember (String c s) as w eqn:Ew.
  revert s Ew.
  induction H as [| | | | | |r0 s1 s2 H1 _ H2 IH2]; intros w' Ew;
    try discriminate.
  injection Er as ->.
  destruct (append_eq_cons _ _ _ _ Ew) as [[-> ->]|(s1' & -> & ->)].
  - now apply (IH2 eq_refl).
  - now exists s1', s2.
Qed.

Lemma deriv_Matches (r : regex) (c : ascii) (s : string) :
  Matches (deriv c r) s <-> Matches r (String c s).
Proof.
  revert s.
  induction r as [| |p|r1 IH1 r2 IH2|r1 IH1 r2 IH2|r IH]; intros s; simpl.
  - split; intros H; inversion H.
  - split; intros H; inversion H.
  - destruct (p c) eqn:Hp; split; intros H; inversion H; subst.
    + now constructor.
    + constructor.
    + congruence.
  - assert (Hcat : Matches (Cat (deriv c r1) r2) s ->
                   Matches (Cat r1 r2) (String c s)).
    { intros H. inversion H as [| |? ? s1 s2 H1 H2| | | |]; subst.
      apply IH1 in H1. change (String c (s1 ++ s2)) with (String c s1 ++ s2)%string.
      now constructor. }
    assert (Hinv : Matches (Cat r1 r2) (String c s) ->
                   (Matches r1 "" /\ Matches r2 (String c s))
                   \/ Matches (Cat (deriv c r1) r2) s).
    { intros H. inversion H as [| |? ? s1 s2 H1 H2 E1 E2| | | |]; subst.
      destruct (append_eq_cons _ _ _ _ E2) as [[-> ->]|(s1' & -> & ->)].
      - left; auto.
      - right. constructor; [now apply IH1 | assumption]. }
    destruct (nullable r1) eqn:Hn.
    + split.
      * intros H. inversion H; subst; [now apply Hcat|].
        change (String c s) with ("" ++ String c s)%string.
        constructor; [now apply nullable_Matches | now apply IH2].
      * intros H. destruct (Hinv H) as [[_ H2]|H'].
        -- apply MAltR. now apply IH2.
        -- now apply MAltL.
    + split; [exact Hcat|].
      intros H. destruct (Hinv H) as [[H1 _]|H']; [|assumption].
      apply nullable_Matches in H1. congruence.
  - split; intros H; inversion H; subst.
    + apply MAltL. now apply IH1.
    + apply MAltR. now apply IH2.
    + apply MAltL. now apply IH1.
    + apply MAltR. now apply IH2.
  - split.
    + intros H. inversion H as [| |? ? s1 s2 H1 H2| | | |]; subst.
      apply IH in H1.
      change (String c (s1 ++ s2)) with (String c s1 ++ s2)%string.
      now constructor.
    + intros H. destruct (Matches_Star_cons _ _ _ H) as (s1 & s2 & -> & H1 & H2).
      constructor; [now apply IH | assumption].
Qed.

Theorem test_Matches (r : regex) (s : string) :
  test r s = true <-> Matches r s.
Proof.
  revert r. induction s as [|c s IH]; intros r; simpl.
  - apply nullable_Matches.
  - rewrite IH. apply deriv_Matches.
Qed.

(** The words of [[p]*] are the strings over the class [p]. *)
Lemma Matches_Star_Class (p : ascii -> bool) (s : string) :
  Matches (Star (Class p)) s <-> all p s = true.
Proof.
  split.
  - intros H. remember (Star (Class p)) as r eqn:Er.
    induction H as [| | | | | |r0 s1 s2 H1 _ H2 IH2]; try discriminate.
    + reflexivity.
    + injection Er as ->. rewrite all_append, (IH2 eq_refl), andb_true_r.
      inversion H1; subst; simpl. now rewrite andb_true_r.
  - induction s as [|c s IH]; simpl; intros H.
    + constructor.
    + apply andb_true_iff in H as [Hc Hs].
      change (String c s) with (String c "" ++ s)%string.
      constructor; [now constructor | now apply IH].
Qed.

(** The words of [[p]+] are the non-empty strings over the class [p]. *)
Lemma Matches_Plus_Class (p : ascii -> bool) (s : string) :
  Matches (Plus (Class p)) s <-> s <> "" /\ all p s = true.
Proof.
  unfold Plus. split.
  - intros H. inversion H as [| |? ? s1 s2 H1 H2| | | |]; subst.
    inversion H1; subst. apply Matches_Star_Class in H2.
    simpl. split; [discriminate | now rewrite H2, andb_true_r].
  - intros [Hne H]. destruct s as [|c s]; [congruence|].
    simpl in H. apply andb_true_iff in H as [Hc Hs].
    change (String c s) with (String c "" ++ s)%string.
    constructor; [now constructor | now apply Matches_Star_Class].
Qed.

Lemma Matches_char (x : ascii) (s : string) :
  Matches (char x) s <-> s = String x "".
Proof.
  unfold char. split.
  - intros H. inversion H; subst. f_equal. now apply Ascii.eqb_eq.
  - intros ->. constructor. apply Ascii.eqb_refl.
Qed.

End RegexFacts.

(** ** The spec parser *)

Module ParserFacts.
Import JsString StringFacts RegexFacts.

Lemma Matches_Cat_inv (r1 r2 : regex) (s : string) :
  Matches (Cat r1 r2) s ->
  exists s1 s2, s = (s1 ++ s2)%string /\ Matches r1 s1 /\ Matches r2 s2.
Proof.
  intros H. inversion H as [| |? ? s1 s2 H1 H2| | | |]; subst.
  now exists s1, s2.
Qed.

Lemma hyphen_free_iff (x : string) :
  all (fun c => negb (Ascii.eqb c "-")) x = true <-> includes x "-" = false.
Proof.
  rewrite includes_char, negb_false_iff. reflexivity.
Qed.

(** What [chainedShortcutRegex] accepts. *)
Lemma chainedShortcutRegex_shape (k : string) :
  test chainedShortcutRegex k = true <-> chainedRegexShape k.
Proof.
  rewrite test_Matches. unfold chainedShortcutRegex, chainedRegexShape, notChar, dot.
  split.
  - intros H.
    apply Matches_Cat_inv in H as (s4 & w & -> & H & Hw).
    apply Matches_Cat_inv in H as (s3 & z & -> & H & Hz).
    apply Matches_Cat_inv in H as (s2 & c & -> & H & Hc).
    apply Matches_Cat_inv in H as (x & y & -> & Hx & Hy).
    apply Matches_char in Hc as ->.
    apply Matches_Plus_Class in Hx as [Hx1 Hx2].
    apply Matches_Plus_Class in Hw as [Hw1 Hw2].
    apply Matches_Star_Class in Hy, Hz.
    exists x, y, z, w. rewrite !append_assoc.
    rewrite hyphen_free_iff in Hx2, Hw2. repeat split; assumption.
  - intros (x & y & z & w & -> & Hx1 & Hx2 & Hy & Hz & Hw1 & Hw2).
    rewrite <- hyphen_free_iff in Hx2, Hw2.
    replace (x ++ y ++ "-" ++ z ++ w)%string
      with ((((x ++ y) ++ "-") ++ z) ++ w)%string
      by now rewrite !append_assoc.
    repeat apply MCat.
    + now apply Matches_Plus_Class.
    + now apply Matches_Star_Class.
    + now apply Matches_char.
    + now apply Matches_Star_Class.
    + now apply Matches_Plus_Class.
Qed.

(** [split] is undone by [join], and no part contains the separator. *)
Lemma split_not_nil (sep : ascii) (s : string) : split sep s <> [].
Proof.
  induction s as [|c s IH]; simpl; [discriminate|].
  destruct (Ascii.eqb c sep); [discriminate|].
  destruct (split sep s); [congruence | discriminate].
Qed.

Lemma join_split (sep : ascii) (s : string) :
  join (String sep "") (split sep s) = s.
Proof.
  unfold join. induction s as [|c s IH]; simpl; [reflexivity|].
  destruct (Ascii.eqb_spec c sep) as [->|Hne].
  - pose proof (split_not_nil sep s) as Hnil.
    destruct (split sep s) as [|x xs]; [congruence|].
    simpl in *. now rewrite IH.
  - pose proof (split_not_nil sep s) as Hnil.
    destruct (split sep s) as [|x xs]; [congruence|].
    destruct xs as [|x' xs]; simpl in *; now rewrite <- IH.
Qed.

Lemma split_parts_no_sep (sep : ascii) (s : string) :
  Forall (fun x => all (fun c => negb (Ascii.eqb c sep)) x = true) (split sep s).
Proof.
  induction s as [|c s IH]; simpl.
  - repeat constructor.
  - destruct (Ascii.eqb c sep) eqn:E.
    + constructor; [reflexivity | exact IH].
    + destruct (split sep s) as [|x xs]; [repeat constructor; simpl; now rewrite E|].
      inversion IH as [|? ? Hx Hxs]; subst.
      constructor; [simpl; now rewrite E, Hx | exact Hxs].
Qed.

(** The two-segment shape of the specification is accepted by the regex. *)
Lemma twoSegmentShape_regex (k : string) :
  twoSegmentShape k = true -> chainedRegexShape k.
Proof.
  unfold twoSegmentShape. intros H.
  pose proof (join_split "-" k) as Hj.
  pose proof (split_parts_no_sep "-" k) as Hp.
  destruct (split "-" k) as [|a [|b [|c l]]]; try discriminate.
  apply andb_true_iff in H as [Ha Hb].
  apply negb_true_iff in Ha, Hb. apply String.eqb_neq in Ha, Hb.
  inversion Hp as [|? ? Pa Hp']; subst. inversion Hp' as [|? ? Pb _]; subst.
  exists a, "", "", b. simpl in *.
  rewrite hyphen_free_iff in Pa, Pb. repeat split; auto.
Qed.

(** [parseConfig] keeps, in order, the specs that [parseShortcut] accepts. *)
Lemma parseConfig_flat_map (config : list (string * Handler)) (macOS : bool) :
  parseConfig config macOS =
  flat_map (fun kh => match parseShortcut (fst kh) (snd kh) macOS with
                      | Some s => [s]
                      | None => []
                      end) config.
Proof.
  unfold parseConfig.
  enough (G : forall acc,
             fold_left
               (fun acc kh =>
                  match parseShortcut (fst kh) (snd kh) macOS with
                  | Some s => acc ++ [s]
                  | None => acc
                  end) config acc
             = acc ++ flat_map (fun kh => match parseShortcut (fst kh) (snd kh) macOS with
                                          | Some s => [s]
                                          | None => []
                                          end) config)
    by apply (G []).
  induction config as [|[k h] config IH]; intros acc; simpl.
  - now rewrite app_nil_r.
  - rewrite IH. destruct (parseShortcut k h macOS); simpl.
    + now rewrite <- app_assoc.
    + reflexivity.
Qed.

(** A lowercased spec in the chained grammar is parsed exactly when the
    regex accepts it. *)
Lemma parseShortcut_chained (spec : string) (h : Handler) (macOS : bool) :
  isChainedSpec (toLowerCase spec) = true ->
  parseShortcut spec h macOS =
  if test chainedShortcutRegex (toLowerCase spec)
  then Some {| handler := h; chained := true; key := toLowerCase spec;
               ctrlKey := false; metaKey := false;
               shiftKey := false; altKey := false |}
  else None.
Proof.
  intros Hc. unfold parseShortcut. rewrite Hc.
  destruct (test chainedShortcutRegex (toLowerCase spec)); simpl; [|reflexivity].
  unfold isChainedSpec in Hc. apply andb_true_iff in Hc as [_ Hu].
  apply negb_true_iff in Hu. unfold isCombinedSpec. rewrite Hu. simpl.
  unfold normalizePlatform. simpl. now rewrite andb_false_r.
Qed.

(** The parsed form of a bare key that is not a modifier name. *)
Lemma parseBase_bare (k : string) :
  includes k "_" = false ->
  arrayIncludes modifierTokens k = false ->
  parseBase k false =
  {| Base.key := k; Base.metaKey := false; Base.ctrlKey := false;
     Base.shiftKey := false; Base.altKey := false |}.
Proof.
  intros Hu Hm. unfold parseBase. rewrite (split_no_sep "_" _ Hu).
  cbn [filter]. rewrite Hm. cbn [negb].
  unfold arrayIncludes, modifierTokens in *. cbn [existsb] in *.
  repeat (apply orb_false_iff in Hm as [? Hm]).
  rewrite !orb_false_r, !(String.eqb_sym _ k).
  repeat match goal with H : String.eqb _ _ = false |- _ => rewrite H; clear H end.
  reflexivity.
Qed.

End ParserFacts.

(** ** The insertion-ordered table *)

Module MapFacts.
Section WithValue.
Variable V : Type.
Implicit Types (m : JsMap.t V) (k : string) (v : V).

Lemma get_set_same m k v : JsMap.get (JsMap.set m k v) k = Some v.
Proof.
  induction m as [|[k' v'] m IH]; simpl.
  - now rewrite String.eqb_refl.
  - destruct (String.eqb k' k) eqn:E; simpl; rewrite E; [reflexivity | exact IH].
Qed.

Lemma get_set_other m k k' v :
  k <> k' -> JsMap.get (JsMap.set m k v) k' = JsMap.get m k'.
Proof.
  intros Hne. induction m as [|[k0 v0] m IH]; simpl.
  - apply String.eqb_neq in Hne. now rewrite Hne.
  - destruct (String.eqb k0 k) eqn:E; simpl.
    + apply String.eqb_eq in E as ->.
      apply String.eqb_neq in Hne. now rewrite Hne.
    + now rewrite IH.
Qed.

Lemma get_None_keys m k : JsMap.get m k = None <-> ~ In k (JsMap.keys m).
Proof.
  induction m as [|[k' v'] m IH]; simpl.
  - tauto.
  - destruct (String.eqb_spec k' k) as [->|Hne].
    + split; [discriminate | intros H; exfalso; apply H; now left].
    + rewrite IH. tauto.
Qed.

(** A [set] either rewrites the record of a key in place or appends one. *)
Lemma keys_set m k v :
  JsMap.keys (JsMap.set m k v) =
  if JsMap.has m k then JsMap.keys m else JsMap.keys m ++ [k].
Proof.
  unfold JsMap.has. induction m as [|[k' v'] m IH]; simpl; [reflexivity|].
  destruct (String.eqb k' k) eqn:E; simpl; [reflexivity|].
  rewrite IH. now destruct (JsMap.get m k).
Qed.

Lemma NoDup_keys_set m k v :
  NoDup (JsMap.keys m) -> NoDup (JsMap.keys (JsMap.set m k v)).
Proof.
  intros Hnd. rewrite keys_set. unfold JsMap.has.
  destruct (JsMap.get m k) eqn:G; [assumption|].
  apply get_None_keys in G.
  apply NoDup_app; [assumption | repeat constructor; simpl; tauto |].
  intros x Hx [<-|[]]. contradiction.
Qed.

Lemma NoDup_keys_delete m k :
  NoDup (JsMap.keys m) -> NoDup (JsMap.keys (JsMap.delete m k)).
Proof.
  unfold JsMap.keys, JsMap.delete.
  induction m as [|[k' v'] m IH]; simpl; intros Hnd; [constructor|].
  inversion Hnd as [|? ? Hnotin Hnd']; subst.
  destruct (String.eqb k' k); simpl; [now apply IH|].
  constructor; [|now apply IH].
  intros Hin. apply Hnotin. apply in_map_iff in Hin as (x & <- & Hx).
  apply filter_In in Hx as [Hx _]. now apply in_map.
Qed.

(** Under distinct keys a key has at most one record. *)
Lemma NoDup_keys_records m k :
  NoDup (JsMap.keys m) ->
  List.length (filter (fun kv => String.eqb (fst kv) k) m) <= 1.
Proof.
  induction m as [|[k' v'] m IH]; simpl; intros Hnd; [lia|].
  inversion Hnd as [|? ? Hnotin Hnd']; subst.
  destruct (String.eqb_spec k' k) as [->|Hne]; [|now apply IH].
  simpl. enough (filter (fun kv => String.eqb (fst kv) k) m = []) as -> by (simpl; lia).
  clear IH Hnd Hnd'. induction m as [|[k0 v0] m IH]; simpl; [reflexivity|].
  simpl in Hnotin. destruct (String.eqb_spec k0 k) as [->|_]; [tauto|].
  apply IH. tauto.
Qed.

Lemma records_present m k v :
  JsMap.get m k = Some v ->
  1 <= List.length (filter (fun kv => String.eqb (fst kv) k) m).
Proof.
  induction m as [|[k' v'] m IH]; simpl; [discriminate|].
  destruct (String.eqb k' k); simpl; [lia | exact IH].
Qed.

Lemma filter_absent m k :
  ~ In k (JsMap.keys m) -> filter (fun kv => String.eqb (fst kv) k) m = [].
Proof.
  induction m as [|[k0 v0] m IH]; simpl; intros H; [reflexivity|].
  destruct (String.eqb_spec k0 k) as [->|_]; [tauto|].
  apply IH. tauto.
Qed.

(** After a [set] the records stored for the key are the new one alone. *)
Lemma filter_set_same m k v :
  NoDup (JsMap.keys m) ->
  filter (fun kv => String.eqb (fst kv) k) (JsMap.set m k v) = [(k, v)].
Proof.
  induction m as [|[k0 v0] m IH]; simpl; intros Hnd.
  - now rewrite String.eqb_refl.
  - inversion Hnd as [|? ? Hnotin Hnd']; subst.
    destruct (String.eqb_spec k0 k) as [->|Hne]; simpl.
    + rewrite String.eqb_refl. f_equal. now apply filter_absent.
    + apply String.eqb_neq in Hne. rewrite Hne. now apply IH.
Qed.

End WithValue.
End MapFacts.

(** ** The shortcut registry and the conflict detector *)

Module RegistryFacts.
Import ShortcutRegistry MapFacts.

Lemma registry_apply_NoDup (registered : t) (op : Op) :
  NoDup (JsMap.keys registered) -> NoDup (JsMap.keys (apply registered op)).
Proof.
  destruct op; simpl; intros H.
  - now apply NoDup_keys_set.
  - now apply NoDup_keys_delete.
Qed.

Lemma registry_fold_apply_NoDup (ops : list Op) (registered : t) :
  NoDup (JsMap.keys registered) ->
  NoDup (JsMap.keys (fold_left apply ops registered)).
Proof.
  revert registered. induction ops as [|op ops IH]; simpl; intros reg H.
  - exact H.
  - apply IH. now apply registry_apply_NoDup.
Qed.

(** Whatever the calls made on a fresh registry, its keys are distinct. *)
Lemma registry_after_NoDup (ops : list Op) : NoDup (JsMap.keys (after ops)).
Proof. apply registry_fold_apply_NoDup. constructor. Qed.

End RegistryFacts.

Module ConflictFacts.
Import HotkeyConflictDetector MapFacts.

Lemma detector_apply_NoDup (registeredKeys : t) (op : Op) :
  NoDup (JsMap.keys registeredKeys) ->
  NoDup (JsMap.keys (apply registeredKeys op)).
Proof.
  destruct op; simpl; intros H.
  - now apply NoDup_keys_set.
  - now apply NoDup_keys_delete.
Qed.

Lemma detector_after_NoDup (ops : list Op) : NoDup (JsMap.keys (after ops)).
Proof.
  unfold after.
  enough (G : forall m : t, NoDup (JsMap.keys m) ->
                            NoDup (JsMap.keys (fold_left apply ops m)))
    by (apply G; constructor).
  induction ops as [|op ops IH]; simpl; intros m H; [exact H|].
  apply IH. now apply detector_apply_NoDup.
Qed.

Lemma small_set (groups : JsMap.t (list Owner)) (k : string) (v : list Owner) :
  small groups -> List.length v <= 1 -> small (JsMap.set groups k v).
Proof.
  unfold small. intros Hs Hv.
  induction groups as [|[k' v'] groups IH]; simpl.
  - constructor; [exact Hv | constructor].
  - inversion Hs as [|? ? H1 H2]; subst.
    destruct (String.eqb k' k); constructor; auto.
Qed.

Lemma has_set_other (groups : JsMap.t (list Owner)) (k k' : string) (v : list Owner) :
  k <> k' -> JsMap.has (JsMap.set groups k v) k' = JsMap.has groups k'.
Proof. intros H. unfold JsMap.has. now rewrite get_set_other. Qed.

(** A key seen for the first time gets a group of its one owner. *)
Lemma addToGroup_fresh (groups : JsMap.t (list Owner)) (k : string) (o : Owner) :
  JsMap.has groups k = false ->
  addToGroup groups (k, o) = JsMap.set (JsMap.set groups k []) k [o].
Proof.
  intros H. unfold addToGroup. simpl. rewrite H. simpl.
  now rewrite get_set_same.
Qed.

Lemma grouping_small (l : list (string * Owner)) :
  forall groups : JsMap.t (list Owner),
    NoDup (map fst l) ->
    (forall k, In k (map fst l) -> JsMap.has groups k = false) ->
    small groups ->
    small (fold_left addToGroup l groups).
Proof.
  induction l as [|[k o] l IH]; simpl; intros groups Hnd Hfresh Hs; [exact Hs|].
  inversion Hnd as [|? ? Hnotin Hnd']; subst.
  rewrite addToGroup_fresh by (apply Hfresh; now left).
  apply IH; [assumption | |].
  - intros k' Hk'.
    assert (k <> k') by (intros ->; contradiction).
    rewrite !has_set_other by assumption. apply Hfresh. now right.
  - apply small_set; [apply small_set; [assumption | simpl; lia] | simpl; lia].
Qed.

Lemma no_conflict_of_small (groups conflicts : JsMap.t (list Owner)) :
  small groups -> fold_left addConflict groups conflicts = conflicts.
Proof.
  intros Hs. induction Hs as [|[k comps] groups Hk _ IH]; simpl; [reflexivity|].
  rewrite <- IH at 2. f_equal. unfold addConflict. simpl in *.
  destruct (Nat.ltb_spec 1 (List.length comps)); [lia | reflexivity].
Qed.

(** Over a table with distinct keys the report is empty. *)
Lemma getConflicts_NoDup (registeredKeys : t) :
  NoDup (JsMap.keys registeredKeys) -> getConflicts registeredKeys = [].
Proof.
  intros Hnd. unfold getConflicts, JsMap.entries.
  apply no_conflict_of_small.
  apply grouping_small; [exact Hnd | reflexivity | constructor].
Qed.

(** The report of a detector is empty, whatever was registered. *)
Lemma getConflicts_after (ops : list Op) : getConflicts (after ops) = [].
Proof. apply getConflicts_NoDup, detector_after_NoDup. Qed.

End ConflictFacts.

(** ** The dispatcher *)

Module DispatcherFacts.
Import JsString StringFacts.

(** A chain pattern contains, and starts with, its first token, and
    contains its second token. *)
Lemma chain_includes_first (a b : string) :
  includes (a ++ "-" ++ b) a = true.
Proof. apply (includes_append "" a ("-" ++ b)). Qed.

Lemma chain_includes_second (a b : string) :
  includes (a ++ "-" ++ b) b = true.
Proof.
  pose proof (includes_append (a ++ "-") b "") as H.
  now rewrite append_nil_r, append_assoc in H.
Qed.

Lemma chain_startsWith_first (a b : string) :
  startsWith (a ++ "-" ++ b) a = true.
Proof. apply prefix_append. Qed.

Lemma fireTimer_idle (t : Z) (st : State) :
  history st = [] -> history (fireTimer t st) = [].
Proof.
  unfold fireTimer. intros H.
  destruct (timer st) as [d|]; [destruct (d <=? t)%Z|]; auto.
Qed.

Lemma fireTimer_due (t d : Z) (st : State) :
  timer st = Some d -> (d <= t)%Z -> history (fireTimer t st) = [].
Proof.
  unfold fireTimer. intros -> H.
  apply Z.leb_le in H. now rewrite H.
Qed.

Lemma fireTimer_pending (t d : Z) (st : State) :
  timer st = Some d -> (t < d)%Z -> fireTimer t st = st.
Proof.
  unfold fireTimer. intros -> H.
  apply Z.leb_gt in H. now rewrite H.
Qed.

Section WithShortcuts.
Variable shortcuts : list Shortcut.
Variable chainDelay : Z.
Variable disableOnInputs : bool.

Lemma keyInSomeChain_member (s : Shortcut) (k : string) :
  In s shortcuts -> chained s = true -> includes (key s) k = true ->
  keyInSomeChain shortcuts k = true.
Proof.
  intros Hin Hc Hi. apply existsb_exists. exists s.
  now rewrite Hc, Hi.
Qed.

Lemma keyBuildsChain_first (s : Shortcut) (a b : string) :
  In s shortcuts -> chained s = true -> key s = (a ++ "-" ++ b)%string ->
  keyBuildsChain shortcuts a = true.
Proof.
  intros Hin Hc Hk. apply existsb_exists. exists s.
  now rewrite Hc, Hk, chain_startsWith_first.
Qed.

(** A chained match is the handler of a chained shortcut whose pattern
    joins the last key of the history and the new key. *)
Lemma matchChained_Some (hist : list string) (k : string) (h : Handler) :
  matchChained shortcuts hist k = Some h ->
  exists s, In s shortcuts /\ chained s = true
            /\ key s = (last hist "" ++ "-" ++ k)%string /\ handler s = h.
Proof.
  unfold matchChained. destruct hist as [|x hist]; [discriminate|].
  destruct (find _ shortcuts) as [s|] eqn:F; [|discriminate].
  simpl. intros [= <-]. apply find_some in F as [Hin Hm].
  unfold chainedMatches in Hm. apply andb_true_iff in Hm as [Hc Hk].
  apply String.eqb_eq in Hk. now exists s.
Qed.

Lemma matchChained_idle (k : string) : matchChained shortcuts [] k = None.
Proof. reflexivity. Qed.

(** With [a] the last key of the history, the chained match for [b] is the
    first chained shortcut whose pattern is [a-b]. *)
Lemma matchChained_last (hist : list string) (a b : string) :
  matchChained shortcuts (hist ++ [a]) b =
  option_map handler
    (find (fun s => chained s && String.eqb (key s) (a ++ "-" ++ b)) shortcuts).
Proof.
  unfold matchChained, chainedMatches.
  destruct (hist ++ [a]) as [|x l] eqn:E.
  - now destruct hist.
  - rewrite <- E, last_last. reflexivity.
Qed.

Lemma onEventFired_suppressed (typing : bool) (e : KeyboardEvent.t) (st : State) :
  keyInSomeChain shortcuts (toLowerCase (KeyboardEvent.key e)) = true ->
  onEventFired shortcuts typing e st = ([], st).
Proof.
  intros H. unfold onEventFired. rewrite H.
  now destruct (typing || _).
Qed.

Lemma onEventFired_typing (e : KeyboardEvent.t) (st : State) :
  onEventFired shortcuts true e st = ([], st).
Proof. reflexivity. Qed.

Lemma onKeyDown_typing (t : Z) (e : KeyboardEvent.t) (st : State) :
  onKeyDown shortcuts chainDelay true t e st = ([], st).
Proof. unfold onKeyDown. now destruct (String.eqb _ _). Qed.

(** While the guard reports typing an event only lets a due timer run. *)
Lemma dispatch_typing (i : Input) (st : State) :
  isTyping disableOnInputs (activeElement i) = true ->
  dispatch shortcuts chainDelay disableOnInputs i st = ([], fireTimer (now i) st).
Proof.
  intros H. unfold dispatch. rewrite H, onEventFired_typing. simpl.
  destruct (KeyboardEvent.type (event i)); [|reflexivity].
  now rewrite onKeyDown_typing.
Qed.

(** The [keydown] listener calls nothing when the history is empty. *)
Lemma onKeyDown_idle (typing : bool) (t : Z) (e : KeyboardEvent.t) (st : State) :
  history st = [] ->
  fst (onKeyDown shortcuts chainDelay typing t e st) = [].
Proof.
  intros H. unfold onKeyDown. rewrite H, matchChained_idle.
  destruct (String.eqb _ _); [reflexivity|].
  destruct typing; [reflexivity|].
  now destruct (keyBuildsChain _ _).
Qed.

(** An event whose key occurs in a chain pattern, arriving when the history
    is empty, calls nothing. *)
Lemma dispatch_idle_suppressed (i : Input) (st : State) :
  history (fireTimer (now i) st) = [] ->
  keyInSomeChain shortcuts (toLowerCase (KeyboardEvent.key (event i))) = true ->
  fst (dispatch shortcuts chainDelay disableOnInputs i st) = [].
Proof.
  intros Hh Hk. unfold dispatch. rewrite onEventFired_suppressed by exact Hk.
  simpl. destruct (KeyboardEvent.type (event i)); [|reflexivity].
  now apply onKeyDown_idle.
Qed.

(** What the [keydown] listener does with the first key [a] of a pattern
    [a-b]: it completes another chain, or records [a] and arms the timer. *)
Lemma onKeyDown_first_key (s : Shortcut) (a b : string) (t : Z)
      (e : KeyboardEvent.t) (st : State) :
  In s shortcuts -> chained s = true -> key s = (a ++ "-" ++ b)%string ->
  a <> "" -> toLowerCase (KeyboardEvent.key e) = a ->
  snd (onKeyDown shortcuts chainDelay false t e st) =
  match matchChained shortcuts (history st) a with
  | Some _ => resetHistory st
  | None => debouncedReset chainDelay t
              {| history := history st ++ [a]; timer := timer st |}
  end.
Proof.
  intros Hin Hc Hk Ha He. unfold onKeyDown.
  destruct (String.eqb_spec (KeyboardEvent.key e) "") as [E|_].
  - rewrite E in He. simpl in He. congruence.
  - rewrite He. destruct (matchChained shortcuts (history st) a); [reflexivity|].
    now rewrite (keyBuildsChain_first s a b Hin Hc Hk).
Qed.

(** Once the first key of [a-b] has been handled at time [ta], the history
    is empty again for any event that arrives more than [chainDelay] later. *)
Lemma history_expired (s : Shortcut) (a b : string) (ta tb : Z)
      (fa : option Element) (ea : KeyboardEvent.t) (st : State) :
  In s shortcuts -> chained s = true -> key s = (a ++ "-" ++ b)%string ->
  a <> "" ->
  KeyboardEvent.type ea = keydown -> toLowerCase (KeyboardEvent.key ea) = a ->
  isTyping disableOnInputs fa = false ->
  (ta + chainDelay < tb)%Z ->
  history
    (fireTimer tb
       (snd (dispatch shortcuts chainDelay disableOnInputs
                      {| now := ta; activeElement := fa; event := ea |} st))) = [].
Proof.
  intros Hin Hc Hk Ha Hty He Hfa Hlt. unfold dispatch. simpl.
  rewrite Hfa, Hty.
  rewrite onEventFired_suppressed
    by (rewrite He; apply (keyInSomeChain_member s); auto;
        rewrite Hk; apply chain_includes_first).
  simpl. rewrite (onKeyDown_first_key s a b) by assumption.
  destruct (matchChained shortcuts _ a).
  - now apply fireTimer_idle.
  - unfold debouncedReset. destruct (chainDelay <=? 0)%Z.
    + now apply fireTimer_idle.
    + apply (fireTimer_due tb (ta + chainDelay)); [reflexivity | lia].
Qed.

End WithShortcuts.
End DispatcherFacts.

(** ** A two-key chain, step by step *)

Module ChainFacts.
Import JsString StringFacts DispatcherFacts.

Section WithShortcuts.
Variable shortcuts : list Shortcut.
Variable chainDelay : Z.
Variable disableOnInputs : bool.

Lemma key_not_empty (e : KeyboardEvent.t) (a : string) :
  toLowerCase (KeyboardEvent.key e) = a -> a <> "" ->
  String.eqb (KeyboardEvent.key e) "" = false.
Proof.
  intros He Ha. apply String.eqb_neq. intros E. rewrite E in He.
  simpl in He. congruence.
Qed.

(** The first key of [a-b], pressed when it completes no chain, calls
    nothing; it is recorded and the timer is armed. *)
Lemma dispatch_first_key (s : Shortcut) (a b : string) (ta : Z)
      (fa : option Element) (ea : KeyboardEvent.t) (st : State) :
  In s shortcuts -> chained s = true -> key s = (a ++ "-" ++ b)%string ->
  a <> "" ->
  KeyboardEvent.type ea = keydown -> toLowerCase (KeyboardEvent.key ea) = a ->
  isTyping disableOnInputs fa = false ->
  matchChained shortcuts (history (fireTimer ta st)) a = None ->
  (0 < chainDelay)%Z ->
  dispatch shortcuts chainDelay disableOnInputs
           {| now := ta; activeElement := fa; event := ea |} st
  = ([], {| history := history (fireTimer ta st) ++ [a];
            timer := Some (ta + chainDelay)%Z |}).
Proof.
  intros Hin Hc Hk Ha Hty He Hfa Hnone Hpos. unfold dispatch. cbn [now activeElement event].
  rewrite Hfa, Hty.
  rewrite onEventFired_suppressed
    by (rewrite He; apply (keyInSomeChain_member shortcuts s); auto;
        rewrite Hk; apply chain_includes_first).
  cbn [fst snd app]. unfold onKeyDown.
  rewrite (key_not_empty ea a He Ha), He, Hnone.
  rewrite (keyBuildsChain_first shortcuts s a b Hin Hc Hk).
  unfold debouncedReset. apply Z.leb_gt in Hpos. now rewrite Hpos.
Qed.

(** The second key of [a-b], pressed while [a] is the last recorded key and
    the timer is still pending, calls the handler of the first chained
    shortcut whose pattern is [a-b], once, and clears the history. *)
Lemma dispatch_second_key (s : Shortcut) (a b : string) (tb d : Z)
      (fb : option Element) (eb : KeyboardEvent.t) (hist : list string) :
  find (fun s' => chained s' && String.eqb (key s') (a ++ "-" ++ b)) shortcuts
  = Some s ->
  b <> "" ->
  KeyboardEvent.type eb = keydown -> toLowerCase (KeyboardEvent.key eb) = b ->
  isTyping disableOnInputs fb = false ->
  (tb < d)%Z ->
  dispatch shortcuts chainDelay disableOnInputs
           {| now := tb; activeElement := fb; event := eb |}
           {| history := hist ++ [a]; timer := Some d |}
  = ([PreventDefault; Call (handler s)], {| history := []; timer := Some d |}).
Proof.
  intros Hfind Hb Hty He Hfb Hlt.
  destruct (find_some _ _ Hfind) as [Hin Hm].
  apply andb_true_iff in Hm as [Hc Hk]. apply String.eqb_eq in Hk.
  unfold dispatch. cbn [now activeElement event].
  rewrite (fireTimer_pending tb d) by (auto; reflexivity).
  rewrite Hfb, Hty.
  rewrite onEventFired_suppressed
    by (rewrite He; apply (keyInSomeChain_member shortcuts s); auto;
        rewrite Hk; apply chain_includes_second).
  cbn [fst snd app]. unfold onKeyDown.
  rewrite (key_not_empty eb b He Hb), He. cbn [history].
  rewrite matchChained_last, Hfind. reflexivity.
Qed.

End WithShortcuts.
End ChainFacts.

(* ================================================================== *)
(** * The properties of the specification *)
(* ================================================================== *)

Import JsString StringFacts RegexFacts ParserFacts MapFacts DispatcherFacts ChainFacts.

(** ** Conflict detector *)

(** C1 (the code departs from the specification): the demo page registers
    the key [ctrl+s] under two distinct owners and then shows
    [getConflicts()].  The table keeps one record per key, so the second
    registration replaces the first, and the report is empty: no entry
    lists the two owners. *)
Theorem getConflicts_two_owners_reports_nothing :
  let registeredKeys :=
    HotkeyConflictDetector.register
      (HotkeyConflictDetector.register HotkeyConflictDetector.create
         "ctrl+s" "demo" "HotkeysDemo")
      "ctrl+s" "editor" "EditorScope" in
  HotkeyConflictDetector.getConflicts registeredKeys = []
  /\ HotkeyConflictDetector.getAllRegistered registeredKeys =
     [("ctrl+s", {| HotkeyConflictDetector.scope := "editor";
                    HotkeyConflictDetector.component := "EditorScope" |})].
Proof. split; reflexivity. Qed.

(** ** Chained shortcuts *)

(** C2, as stated, fails for a chained spec that is shadowed by an earlier
    spec with the same lowercased pattern: with [G-H] bound to handler 1
    and [g-h] bound to handler 2, both are in the active set, and pressing
    [g] then [h] within the timeout calls handler 1 only. *)
Lemma shadowed_chain_counterexample :
  let shortcuts := parseConfig [("G-H", 1); ("g-h", 2)] false in
  let second := {| handler := 2; chained := true; key := "g-h";
                   ctrlKey := false; metaKey := false;
                   shiftKey := false; altKey := false |} in
  let calls :=
    invoked (fst (defineShortcuts [("G-H", 1); ("g-h", 2)] 800 true false
                    [at_time 0 (press "g"); at_time 100 (press "h")])) in
  parseShortcut "g-h" 2 false = Some second
  /\ In second shortcuts
  /\ calls = [1]
  /\ count_occ Nat.eq_dec calls 2 = 0.
Proof.
  repeat split; try reflexivity. right; left; reflexivity.
Qed.

(** C2 (amended): let [a-b] be the pattern of a chained shortcut of the
    active set, and let a key-down of [a] be handled while the guard
    reports "not typing".  If that key-down completes no chain itself (as
    when the history is empty) and a key-down of [b] follows within the
    chain timeout, again "not typing", then the first key calls nothing and
    the second calls exactly once the handler of the first chained shortcut
    of the active set whose pattern is [a-b], and clears the history.  If
    the next event is instead a key-down of [b] that arrives after the
    timeout has expired, it calls no handler at all. *)
Theorem chained_sequence_fires_once :
  forall (shortcuts : list Shortcut) (chainDelay : Z) (disableOnInputs : bool)
         (s : Shortcut) (a b : string) (st : State) (ta tb : Z)
         (fa fb : option Element) (ea eb : KeyboardEvent.t),
    In s shortcuts -> chained s = true -> key s = (a ++ "-" ++ b)%string ->
    a <> "" -> b <> "" ->
    KeyboardEvent.type ea = keydown -> toLowerCase (KeyboardEvent.key ea) = a ->
    KeyboardEvent.type eb = keydown -> toLowerCase (KeyboardEvent.key eb) = b ->
    isTyping disableOnInputs fa = false ->
    let ia := {| now := ta; activeElement := fa; event := ea |} in
    let ib := {| now := tb; activeElement := fb; event := eb |} in
    let st1 := snd (dispatch shortcuts chainDelay disableOnInputs ia st) in
    (find (fun s' => chained s' && String.eqb (key s') (a ++ "-" ++ b)) shortcuts
     = Some s ->
     matchChained shortcuts (history (fireTimer ta st)) a = None ->
     isTyping disableOnInputs fb = false ->
     (ta <= tb < ta + chainDelay)%Z ->
     fst (dispatch shortcuts chainDelay disableOnInputs ia st) = []
     /\ fst (dispatch shortcuts chainDelay disableOnInputs ib st1)
        = [PreventDefault; Call (handler s)]
     /\ invoked (fst (run shortcuts chainDelay disableOnInputs [ia; ib] st))
        = [handler s]
     /\ history (snd (dispatch shortcuts chainDelay disableOnInputs ib st1)) = [])
    /\ ((ta + chainDelay < tb)%Z ->
        fst (dispatch shortcuts chainDelay disableOnInputs ib st1) = []).
Proof.
  intros shortcuts chainDelay disableOnInputs s a b st ta tb fa fb ea eb
         Hin Hc Hk Ha Hb Htya Hea Htyb Heb Hfa ia ib st1.
  split.
  - intros Hfind Hnone Hfb Ht.
    assert (Hpos : (0 < chainDelay)%Z) by lia.
    pose proof (dispatch_first_key shortcuts chainDelay disableOnInputs
                  s a b ta fa ea st Hin Hc Hk Ha Htya Hea Hfa Hnone Hpos) as E1.
    fold ia in E1.
    assert (E2 : dispatch shortcuts chainDelay disableOnInputs ib st1
                 = ([PreventDefault; Call (handler s)],
                    {| history := []; timer := Some (ta + chainDelay)%Z |})).
    { unfold st1. rewrite E1. cbn [snd].
      apply (dispatch_second_key shortcuts chainDelay disableOnInputs s a b);
        auto. lia. }
    cbn [run]. fold st1. rewrite E2, E1. repeat split; reflexivity.
  - intros Hlate. unfold ib. apply dispatch_idle_suppressed.
    + cbn [now]. unfold st1, ia.
      apply (history_expired shortcuts chainDelay disableOnInputs s a b); auto.
    + cbn [event]. rewrite Heb.
      apply (keyInSomeChain_member shortcuts s); auto.
      rewrite Hk. apply chain_includes_second.
Qed.

Lemma chained_sequence_fires_once_witness :
  let shortcuts := parseConfig [("g-h", 1); ("g-d", 2)] false in
  invoked (fst (run shortcuts 800 true
                    [at_time 0 (press "G"); at_time 300 (press "h")]
                    initialState)) = [1]
  /\ fst (dispatch shortcuts 800 true (at_time 900 (press "h"))
                   (snd (dispatch shortcuts 800 true (at_time 0 (press "G"))
                                  initialState))) = [].
Proof.
  intros shortcuts.
  pose proof (chained_sequence_fires_once shortcuts 800%Z true
                {| handler := 1; chained := true; key := "g-h";
                   ctrlKey := false; metaKey := false;
                   shiftKey := false; altKey := false |}
                "g" "h" initialState 0%Z 300%Z None None (press "G") (press "h"))
    as Hin_time.
  pose proof (chained_sequence_fires_once shortcuts 800%Z true
                {| handler := 1; chained := true; key := "g-h";
                   ctrlKey := false; metaKey := false;
                   shiftKey := false; altKey := false |}
                "g" "h" initialState 0%Z 900%Z None None (press "G") (press "h"))
    as Hlate.
  split.
  - apply Hin_time; try reflexivity; try discriminate.
    + left; reflexivity.
    + lia.
  - apply Hlate; try reflexivity; try discriminate.
    left; reflexivity.
Defined.

(** C3, as stated, fails: with [g-h] and a bare [h] both in the active
    set, [g], a wait of 900 time units and then [h] calls no handler; the
    bare [h] handler (2) is not called although it matches the event. *)
Lemma bare_key_after_timeout_counterexample :
  let shortcuts := parseConfig [("g-h", 1); ("h", 2)] false in
  let st1 := snd (dispatch shortcuts 800 true (at_time 0 (press "g")) initialState) in
  let calls := invoked (fst (dispatch shortcuts 800 true (at_time 900 (press "h")) st1)) in
  matchCombined shortcuts (press "h") = Some 2
  /\ calls = []
  /\ ~ In 2 calls.
Proof.
  repeat split. intros H. exact H.
Qed.

(** C3 (amended): with the chained spec [g-h] and a bare combined spec [h]
    both in the active set, a key-down of [g] handled while "not typing",
    then a wait exceeding the chain timeout, then a key-down of [h] calls
    neither the [g-h] handler nor the bare [h] handler: the history has been
    cleared, and the combined path is skipped because [h] occurs in the
    pattern [g-h]. *)
Theorem chain_timeout_then_bare_key :
  forall (shortcuts : list Shortcut) (chainDelay : Z) (disableOnInputs : bool)
         (goHome bare : Shortcut) (st : State) (ta tb : Z)
         (fa fb : option Element) (eg eh : KeyboardEvent.t),
    In goHome shortcuts -> chained goHome = true -> key goHome = "g-h" ->
    In bare shortcuts -> chained bare = false -> key bare = "h" ->
    KeyboardEvent.type eg = keydown -> toLowerCase (KeyboardEvent.key eg) = "g" ->
    KeyboardEvent.type eh = keydown -> toLowerCase (KeyboardEvent.key eh) = "h" ->
    isTyping disableOnInputs fa = false ->
    (ta + chainDelay < tb)%Z ->
    let st1 := snd (dispatch shortcuts chainDelay disableOnInputs
                             {| now := ta; activeElement := fa; event := eg |} st) in
    let acts := fst (dispatch shortcuts chainDelay disableOnInputs
                              {| now := tb; activeElement := fb; event := eh |} st1) in
    acts = []
    /\ ~ In (handler goHome) (invoked acts)
    /\ ~ In (handler bare) (invoked acts).
Proof.
  intros shortcuts chainDelay disableOnInputs goHome bare st ta tb fa fb eg eh
         Hin Hc Hk _ _ _ Htyg Heg _ Heh Hfa Hlate st1 acts.
  assert (E : acts = []).
  { unfold acts. apply dispatch_idle_suppressed.
    - cbn [now]. unfold st1.
      apply (history_expired shortcuts chainDelay disableOnInputs goHome "g" "h");
        auto. discriminate.
    - cbn [event]. rewrite Heh.
      apply (keyInSomeChain_member shortcuts goHome); auto.
      now rewrite Hk. }
  rewrite E. simpl. tauto.
Qed.

Lemma chain_timeout_then_bare_key_witness :
  let shortcuts := parseConfig [("g-h", 1); ("h", 2)] false in
  fst (dispatch shortcuts 800 true (at_time 900 (press "h"))
                (snd (dispatch shortcuts 800 true (at_time 0 (press "g"))
                               initialState))) = [].
Proof.
  intros shortcuts.
  apply (chain_timeout_then_bare_key shortcuts 800%Z true
           {| handler := 1; chained := true; key := "g-h";
              ctrlKey := false; metaKey := false;
              shiftKey := false; altKey := false |}
           {| handler := 2; chained := false; key := "h";
              ctrlKey := false; metaKey := false;
              shiftKey := false; altKey := false |}
           initialState 0%Z 900%Z None None (press "g") (press "h"));
    try reflexivity.
  - left; reflexivity.
  - right; left; reflexivity.
Defined.

(** ** Combined shortcuts *)

(** C4: when the lowercased key of an event occurs in the pattern of some
    chained shortcut of the active set, [onEventFired] does nothing,
    whatever combined shortcut matches the event; so the only handler the
    event can call is the one of a chained shortcut completed by it. *)
Theorem chain_key_suppresses_combined :
  forall (shortcuts : list Shortcut) (chainDelay : Z) (disableOnInputs : bool)
         (i : Input) (st : State) (c : Shortcut),
    In c shortcuts -> chained c = true ->
    includes (key c) (toLowerCase (KeyboardEvent.key (event i))) = true ->
    (forall typing st', onEventFired shortcuts typing (event i) st' = ([], st'))
    /\ (fst (dispatch shortcuts chainDelay disableOnInputs i st) = []
        \/ exists s, In s shortcuts /\ chained s = true
                     /\ fst (dispatch shortcuts chainDelay disableOnInputs i st)
                        = [PreventDefault; Call (handler s)]).
Proof.
  intros shortcuts chainDelay disableOnInputs i st c Hin Hc Hinc.
  pose proof (keyInSomeChain_member shortcuts c _ Hin Hc Hinc) as Hk.
  split; [intros typing st'; now apply onEventFired_suppressed|].
  unfold dispatch. rewrite onEventFired_suppressed by exact Hk. simpl.
  destruct (KeyboardEvent.type (event i)); [|now left].
  unfold onKeyDown.
  destruct (String.eqb _ _); [now left|].
  destruct (isTyping _ _); [now left|].
  destruct (matchChained shortcuts _ _) as [h|] eqn:M.
  - right. apply matchChained_Some in M as (s & Hs & Hcs & _ & <-).
    now exists s.
  - left. now destruct (keyBuildsChain _ _).
Qed.

Lemma chain_key_suppresses_combined_witness :
  let shortcuts := parseConfig [("g-h", 1); ("h", 2)] false in
  onEventFired shortcuts false (press "h") initialState = ([], initialState)
  /\ matchCombined shortcuts (press "h") = Some 2.
Proof.
  intros shortcuts. split; [|reflexivity].
  refine (proj1 (chain_key_suppresses_combined shortcuts 800%Z true
                   (at_time 0 (press "h")) initialState
                   {| handler := 1; chained := true; key := "g-h";
                      ctrlKey := false; metaKey := false;
                      shiftKey := false; altKey := false |} _ eq_refl eq_refl)
                false initialState).
  left. reflexivity.
Defined.

Module CombinedFacts.

(** An element that passes a test, with none before it that does, is the
    one [find] returns. *)
Lemma find_unshadowed {A : Type} (f : A -> bool) (before rest : list A) (x : A) :
  (forall y, In y before -> f y = false) -> f x = true ->
  find f (before ++ x :: rest) = Some x.
Proof.
  intros Hb Hx. induction before as [|a before IH]; simpl.
  - now rewrite Hx.
  - rewrite (Hb a) by now left. apply IH. intros y Hy. apply Hb. now right.
Qed.

(** [find] misses no element that passes the test. *)
Lemma find_misses_nothing {A : Type} (f : A -> bool) (l : list A) (x : A) :
  In x l -> f x = true -> exists y, find f l = Some y /\ In y l /\ f y = true.
Proof.
  intros Hin Hx. destruct (find f l) as [y|] eqn:F.
  - exists y. destruct (find_some _ _ F). auto.
  - rewrite (find_none _ _ F x Hin) in Hx. discriminate.
Qed.

(** Two shortcuts that match one event have the same grammar, key and
    modifier flags. *)
Lemma combinedMatches_signature (e : KeyboardEvent.t) (s s' : Shortcut) :
  combinedMatches e s = true -> combinedMatches e s' = true ->
  signature s' = signature s.
Proof.
  unfold combinedMatches, signature.
  rewrite !andb_true_iff, !negb_true_iff, !String.eqb_eq, !Bool.eqb_true_iff.
  intros [[[[[Hc Hk] H1] H2] H3] H4] [[[[[Hc' Hk'] H1'] H2'] H3'] H4'].
  congruence.
Qed.

End CombinedFacts.

(** C5: the combined match selects a shortcut only if it is not chained,
    its key is the lowercased key of the event and its four modifier flags
    equal those of the event; and when a key-down event that is not
    suppressed (the guard reports "not typing" and the key occurs in no
    chain pattern) has a combined match, its handler is called exactly
    once for that event.  Conversely the match misses nothing: when a
    shortcut of the active set matches the event exactly, the combined
    match returns the handler of a shortcut with that key and those flags;
    it is the handler of that very shortcut when no earlier shortcut of
    the set has the same key and flags, and such an event, when it is a
    key-down that is not suppressed, calls that handler exactly once. *)
Theorem combined_match_exact :
  forall (shortcuts : list Shortcut) (chainDelay : Z) (disableOnInputs : bool),
    (forall (e : KeyboardEvent.t) (s : Shortcut),
        combinedMatches e s = true <->
        (chained s = false
         /\ key s = toLowerCase (KeyboardEvent.key e)
         /\ ctrlKey s = KeyboardEvent.ctrlKey e
         /\ metaKey s = KeyboardEvent.metaKey e
         /\ shiftKey s = KeyboardEvent.shiftKey e
         /\ altKey s = KeyboardEvent.altKey e))
    /\ (forall (e : KeyboardEvent.t) (h : Handler),
           matchCombined shortcuts e = Some h ->
           exists s, In s shortcuts /\ handler s = h /\ combinedMatches e s = true)
    /\ (forall (i : Input) (st : State) (h : Handler),
           KeyboardEvent.type (event i) = keydown ->
           isTyping disableOnInputs (activeElement i) = false ->
           keyInSomeChain shortcuts (toLowerCase (KeyboardEvent.key (event i))) = false ->
           matchCombined shortcuts (event i) = Some h ->
           fst (dispatch shortcuts chainDelay disableOnInputs i st)
           = [PreventDefault; Call h]
           /\ invoked (fst (dispatch shortcuts chainDelay disableOnInputs i st)) = [h])
    /\ (forall (e : KeyboardEvent.t) (s : Shortcut),
           In s shortcuts ->
           combinedMatches e s = true ->
           exists s', In s' shortcuts /\ signature s' = signature s
                      /\ matchCombined shortcuts e = Some (handler s'))
    /\ (forall (e : KeyboardEvent.t) (before rest : list Shortcut) (s : Shortcut),
           shortcuts = before ++ s :: rest ->
           (forall s', In s' before -> signature s' <> signature s) ->
           combinedMatches e s = true ->
           matchCombined shortcuts e = Some (handler s))
    /\ (forall (i : Input) (st : State) (before rest : list Shortcut) (s : Shortcut),
           shortcuts = before ++ s :: rest ->
           (forall s', In s' before -> signature s' <> signature s) ->
           chained s = false ->
           key s = toLowerCase (KeyboardEvent.key (event i)) ->
           ctrlKey s = KeyboardEvent.ctrlKey (event i) ->
           metaKey s = KeyboardEvent.metaKey (event i) ->
           shiftKey s = KeyboardEvent.shiftKey (event i) ->
           altKey s = KeyboardEvent.altKey (event i) ->
           KeyboardEvent.type (event i) = keydown ->
           isTyping disableOnInputs (activeElement i) = false ->
           keyInSomeChain shortcuts (toLowerCase (KeyboardEvent.key (event i))) = false ->
           fst (dispatch shortcuts chainDelay disableOnInputs i st)
           = [PreventDefault; Call (handler s)]
           /\ invoked (fst (dispatch shortcuts chainDelay disableOnInputs i st))
              = [handler s]).
Proof.
  intros shortcuts chainDelay disableOnInputs.
  assert (Hexact : forall (e : KeyboardEvent.t) (s : Shortcut),
             combinedMatches e s = true <->
             (chained s = false
              /\ key s = toLowerCase (KeyboardEvent.key e)
              /\ ctrlKey s = KeyboardEvent.ctrlKey e
              /\ metaKey s = KeyboardEvent.metaKey e
              /\ shiftKey s = KeyboardEvent.shiftKey e
              /\ altKey s = KeyboardEvent.altKey e)).
  { intros e s. unfold combinedMatches.
    rewrite !andb_true_iff, negb_true_iff, String.eqb_eq, !Bool.eqb_true_iff.
    tauto. }
  assert (Hfire : forall (i : Input) (st : State) (h : Handler),
             KeyboardEvent.type (event i) = keydown ->
             isTyping disableOnInputs (activeElement i) = false ->
             keyInSomeChain shortcuts
               (toLowerCase (KeyboardEvent.key (event i))) = false ->
             matchCombined shortcuts (event i) = Some h ->
             fst (dispatch shortcuts chainDelay disableOnInputs i st)
             = [PreventDefault; Call h]
             /\ invoked (fst (dispatch shortcuts chainDelay disableOnInputs i st))
                = [h]).
  { intros i st h Hty Hfocus Hk Hm.
    assert (E : dispatch shortcuts chainDelay disableOnInputs i st
                = ([PreventDefault; Call h],
                   snd (dispatch shortcuts chainDelay disableOnInputs i st))).
    { unfold dispatch. rewrite Hfocus, Hty.
      unfold onEventFired. rewrite Hty, Hk, Hm. cbn [orb fst snd].
      rewrite (surjective_pairing (onKeyDown _ _ _ _ _ _)) at 1.
      rewrite onKeyDown_idle by reflexivity. reflexivity. }
    rewrite E. split; reflexivity. }
  assert (Hfirst : forall (e : KeyboardEvent.t) (before rest : list Shortcut)
                          (s : Shortcut),
             shortcuts = before ++ s :: rest ->
             (forall s', In s' before -> signature s' <> signature s) ->
             combinedMatches e s = true ->
             matchCombined shortcuts e = Some (handler s)).
  { intros e before rest s -> Hb Hs. unfold matchCombined.
    rewrite (CombinedFacts.find_unshadowed (combinedMatches e) before rest s);
      [reflexivity | | exact Hs].
    intros s' Hs'. destruct (combinedMatches e s') eqn:M; [|reflexivity].
    exfalso. apply (Hb s' Hs').
    now apply (CombinedFacts.combinedMatches_signature e). }
  split; [exact Hexact|]. split; [|split; [exact Hfire|]].
  - intros e h. unfold matchCombined.
    destruct (find _ shortcuts) as [s|] eqn:F; [|discriminate].
    simpl. intros [= <-]. apply find_some in F as [Hin Hm]. now exists s.
  - split; [|split; [exact Hfirst|]].
    + intros e s Hin Hs.
      destruct (CombinedFacts.find_misses_nothing (combinedMatches e) shortcuts s
                  Hin Hs) as (s' & F & Hin' & Hs').
      exists s'. split; [exact Hin'|]. split.
      * now apply (CombinedFacts.combinedMatches_signature e).
      * unfold matchCombined. now rewrite F.
    + intros i st before rest s Hsplit Hb Hc Hkey H1 H2 H3 H4 Hty Hfocus Hk.
      apply Hfire; auto. apply (Hfirst _ before rest); auto.
      apply Hexact. repeat split; assumption.
Qed.

Lemma combined_match_exact_witness :
  let shortcuts :=
    parseConfig [("ctrl_s", 1); ("meta_k", 2); ("shift_d", 3);
                 ("ctrl_shift_p", 4); ("g-h", 5); ("g-g", 6); ("d-d", 7);
                 ("c-p", 8)] false in
  let e := {| KeyboardEvent.type := keydown; KeyboardEvent.key := "S";
              KeyboardEvent.ctrlKey := true; KeyboardEvent.metaKey := false;
              KeyboardEvent.shiftKey := false; KeyboardEvent.altKey := false |} in
  invoked (fst (dispatch shortcuts 800 true (at_time 0 e) initialState)) = [1]
  /\ matchCombined shortcuts e = Some 1.
Proof.
  intros shortcuts e.
  pose proof (combined_match_exact shortcuts 800%Z true)
    as (_ & _ & _ & _ & Hfirst & Hfire).
  set (s := {| handler := 1; chained := false; key := "s"; ctrlKey := true;
               metaKey := false; shiftKey := false; altKey := false |}).
  assert (Hsplit : shortcuts = [] ++ s :: tl shortcuts)
    by (vm_compute; reflexivity).
  assert (Hnone : forall s', In s' (@nil Shortcut) -> signature s' <> signature s)
    by (intros s' []).
  split.
  - apply (Hfire (at_time 0 e) initialState [] (tl shortcuts) s Hsplit Hnone);
      vm_compute; reflexivity.
  - apply (Hfirst e [] (tl shortcuts) s Hsplit Hnone).
    vm_compute; reflexivity.
Defined.

(** ** Spec parser *)

(** C6, as stated, fails for a bare modifier name: the spec
    [shift] has neither separator, yet it parses to the empty base key with
    [shiftKey] set. *)
Lemma bare_modifier_name_counterexample :
  includes "shift" "-" = false
  /\ includes "shift" "_" = false
  /\ parseShortcut "shift" 0 true =
     Some {| handler := 0; chained := false; key := "";
             ctrlKey := false; metaKey := false;
             shiftKey := true; altKey := false |}
  /\ parseShortcut "shift" 0 true <>
     Some {| handler := 0; chained := false; key := toLowerCase "shift";
             ctrlKey := false; metaKey := false;
             shiftKey := false; altKey := false |}.
Proof. repeat split; try reflexivity. discriminate. Qed.

(** C6 (amended): a spec with neither a hyphen nor an underscore whose
    lowercased form is not one of the six modifier tokens parses to a
    non-chained shortcut with the four modifier flags false and the whole
    lowercased spec as its key. *)
Theorem bare_key_parse :
  forall (spec : string) (h : Handler) (macOS : bool),
    includes spec "-" = false ->
    includes spec "_" = false ->
    arrayIncludes modifierTokens (toLowerCase spec) = false ->
    parseShortcut spec h macOS =
    Some {| handler := h; chained := false; key := toLowerCase spec;
            ctrlKey := false; metaKey := false;
            shiftKey := false; altKey := false |}.
Proof.
  intros spec h macOS Hh Hu Hm.
  rewrite <- includes_hyphen_lower in Hh.
  rewrite <- includes_underscore_lower in Hu.
  unfold parseShortcut, isChainedSpec, isCombinedSpec. rewrite Hh, Hu.
  cbn [andb negb]. rewrite (parseBase_bare _ Hu Hm).
  unfold normalizePlatform. cbn. now rewrite andb_false_r.
Qed.

Lemma bare_key_parse_witness :
  parseShortcut "Escape" 4 false =
  Some {| handler := 4; chained := false; key := "escape";
          ctrlKey := false; metaKey := false;
          shiftKey := false; altKey := false |}.
Proof. apply (bare_key_parse "Escape" 4 false); reflexivity. Defined.

(** C7, as stated, fails for a spec of three segments: [a-b-c]
    contains a hyphen and no underscore and is not of the two-segment shape,
    yet it is accepted. *)
Lemma three_segment_chain_counterexample :
  includes "a-b-c" "-" = true
  /\ includes "a-b-c" "_" = false
  /\ twoSegmentShape (toLowerCase "a-b-c") = false
  /\ parseShortcut "a-b-c" 0 true =
     Some {| handler := 0; chained := true; key := "a-b-c";
             ctrlKey := false; metaKey := false;
             shiftKey := false; altKey := false |}.
Proof. repeat split; reflexivity. Qed.

(** C7 (amended): a spec that contains a hyphen and no underscore is
    accepted exactly when its lowercased form has the shape of the regex: a
    non-empty hyphen-free head, a hyphen and a non-empty hyphen-free tail,
    with any characters other than line terminators between them and the
    hyphen.  Every spec of the two-segment shape is accepted; an accepted
    spec becomes a chained shortcut whose key is the lowercased spec, and a
    rejected one adds nothing to the active set. *)
Theorem chained_spec_accepted_iff_regex_shape :
  forall (spec : string) (h : Handler) (macOS : bool),
    includes spec "-" = true ->
    includes spec "_" = false ->
    (parseShortcut spec h macOS <> None
     <-> chainedRegexShape (toLowerCase spec))
    /\ (twoSegmentShape (toLowerCase spec) = true ->
        parseShortcut spec h macOS <> None)
    /\ (parseShortcut spec h macOS <> None ->
        parseShortcut spec h macOS =
        Some {| handler := h; chained := true; key := toLowerCase spec;
                ctrlKey := false; metaKey := false;
                shiftKey := false; altKey := false |})
    /\ (parseShortcut spec h macOS = None ->
        forall before rest : list (string * Handler),
          parseConfig (before ++ (spec, h) :: rest) macOS
          = parseConfig (before ++ rest) macOS).
Proof.
  intros spec h macOS Hh Hu.
  assert (Hc : isChainedSpec (toLowerCase spec) = true).
  { unfold isChainedSpec.
    now rewrite includes_hyphen_lower, includes_underscore_lower, Hh, Hu. }
  pose proof (parseShortcut_chained spec h macOS Hc) as Hp.
  pose proof (chainedShortcutRegex_shape (toLowerCase spec)) as Hshape.
  assert (Hiff : parseShortcut spec h macOS <> None
                 <-> chainedRegexShape (toLowerCase spec)).
  { rewrite <- Hshape, Hp.
    destruct (test chainedShortcutRegex (toLowerCase spec)); split;
      congruence. }
  repeat split.
  - apply Hiff.
  - apply Hiff.
  - intros H. apply Hiff. now apply twoSegmentShape_regex.
  - intros H. rewrite Hp in *.
    now destruct (test chainedShortcutRegex (toLowerCase spec)).
  - intros H before rest. rewrite !parseConfig_flat_map, !flat_map_app.
    simpl. now rewrite H.
Qed.

Lemma chained_spec_accepted_iff_regex_shape_witness :
  chainedRegexShape (toLowerCase "G-H")
  /\ parseShortcut "G-H" 1 false =
     Some {| handler := 1; chained := true; key := "g-h";
             ctrlKey := false; metaKey := false;
             shiftKey := false; altKey := false |}
  /\ parseConfig ([("g-d", 2)] ++ ("-x", 3) :: [("h", 4)]) false
     = parseConfig ([("g-d", 2)] ++ [("h", 4)]) false.
Proof.
  pose proof (chained_spec_accepted_iff_regex_shape "G-H" 1 false
                eq_refl eq_refl) as (Hiff & Htwo & Hkey & _).
  pose proof (chained_spec_accepted_iff_regex_shape "-x" 3 false
                eq_refl eq_refl) as (_ & _ & _ & Hdrop).
  split; [apply Hiff, Htwo; reflexivity|].
  split; [apply Hkey, Htwo; reflexivity|].
  apply Hdrop. reflexivity.
Defined.



(** ** Typing guard *)

(** C9: with [disableOnInputs] set, as long as every event arrives while a
    text input, a text area or a content-editable element has the focus,
    the dispatcher performs no action at all: no handler, chained or
    combined, is called; and with [disableOnInputs] clear the guard reports
    "not typing" for every focus target. *)
Theorem typing_guard_blocks_all_handlers :
  forall (shortcuts : list Shortcut) (chainDelay : Z),
    (forall (inputs : list Input) (st : State),
        Forall (fun i => exists el, activeElement i = Some el /\ TextEntry el)
               inputs ->
        fst (run shortcuts chainDelay true inputs st) = [])
    /\ (forall active : option Element, isTyping false active = false).
Proof.
  intros shortcuts chainDelay. split; [|reflexivity].
  intros inputs. induction inputs as [|i inputs IH]; intros st H; [reflexivity|].
  inversion H as [|? ? (el & Hfocus & Hel) Hrest]; subst.
  assert (Ht : isTyping true (activeElement i) = true).
  { rewrite Hfocus. unfold isTyping. simpl.
    destruct Hel as [->| [->| ->]]; simpl; auto using orb_true_r. }
  cbn [run]. rewrite (dispatch_typing shortcuts chainDelay true i st Ht).
  cbn [fst snd app]. now apply IH.
Qed.

Lemma typing_guard_blocks_all_handlers_witness :
  let focus (tag : string) (editable : bool) :=
    Some {| tagName := tag; isContentEditable := editable |} in
  fst (run (parseConfig [("escape", 1); ("g-h", 2); ("ctrl_s", 3)] false)
           800 true
           [ {| now := 0; activeElement := focus "INPUT" false;
                event := press "Escape" |};
             {| now := 10; activeElement := focus "TEXTAREA" false;
                event := press "g" |};
             {| now := 20; activeElement := focus "DIV" true;
                event := press "h" |} ]
           initialState) = [].
Proof.
  intros focus.
  apply (proj1 (typing_guard_blocks_all_handlers _ 800%Z)).
  repeat constructor; eexists; (split; [reflexivity|]); unfold TextEntry; simpl; auto.
Defined.

(** ** Shortcut registry *)

(** C10: whatever calls were made on the registry, it stores at most one
    record per shortcut string; and when a shortcut string is registered
    and then registered again, the second call warns, [getRegistration]
    returns the second registrant's component, handler and location, and the
    only record stored for that string is the second one. *)
Theorem registry_one_record_per_shortcut :
  forall (ops : list ShortcutRegistry.Op) (shortcut : string)
         (h1 h2 : Handler) (c1 l1 c2 l2 : string),
    let reg0 := ShortcutRegistry.after ops in
    let reg1 := ShortcutRegistry.register reg0 shortcut h1 c1 l1 in
    let reg2 := ShortcutRegistry.register reg1 shortcut h2 c2 l2 in
    let second := {| ShortcutRegistry.component := c2;
                     ShortcutRegistry.handler := h2;
                     ShortcutRegistry.location := l2 |} in
    (forall k, ShortcutRegistry.recordsFor reg0 k <= 1)
    /\ NoDup (ShortcutRegistry.getRegisteredShortcuts reg0)
    /\ ShortcutRegistry.registerWarns reg1 shortcut = true
    /\ ShortcutRegistry.getRegistration reg2 shortcut = Some second
    /\ filter (fun kv => String.eqb (fst kv) shortcut) reg2 = [(shortcut, second)]
    /\ ShortcutRegistry.recordsFor reg2 shortcut = 1.
Proof.
  intros ops shortcut h1 h2 c1 l1 c2 l2 reg0 reg1 reg2 second.
  pose proof (RegistryFacts.registry_after_NoDup ops) as Hnd. fold reg0 in Hnd.
  assert (Hnd1 : NoDup (JsMap.keys reg1)) by now apply NoDup_keys_set.
  assert (Hf : filter (fun kv => String.eqb (fst kv) shortcut) reg2
               = [(shortcut, second)])
    by now apply filter_set_same.
  repeat split.
  - intros k. now apply NoDup_keys_records.
  - exact Hnd.
  - unfold ShortcutRegistry.registerWarns, JsMap.has, reg1, ShortcutRegistry.register.
    now rewrite get_set_same.
  - apply get_set_same.
  - exact Hf.
  - unfold ShortcutRegistry.recordsFor. now rewrite Hf.
Qed.

(* ================================================================== *)
(** * Further properties of the code *)
(* ================================================================== *)

(** ** More on the spec parser *)

Module ParserMore.
Import JsString StringFacts RegexFacts ParserFacts.

Lemma underscore_free_iff (x : string) :
  all (fun c => negb (Ascii.eqb c "_")) x = true <-> includes x "_" = false.
Proof. rewrite includes_char, negb_false_iff. reflexivity. Qed.

(** What [combinedShortcutRegex] accepts. *)
Lemma combinedShortcutRegex_shape (k : string) :
  test combinedShortcutRegex k = true <-> combinedRegexShape k.
Proof.
  rewrite test_Matches.
  unfold combinedShortcutRegex, combinedRegexShape, notChar, dot.
  split.
  - intros H.
    apply Matches_Cat_inv in H as (s4 & w & -> & H & Hw).
    apply Matches_Cat_inv in H as (s3 & z & -> & H & Hz).
    apply Matches_Cat_inv in H as (s2 & c & -> & H & Hc).
    apply Matches_Cat_inv in H as (x & y & -> & Hx & Hy).
    apply Matches_char in Hc as ->.
    apply Matches_Plus_Class in Hx as [Hx1 Hx2].
    apply Matches_Plus_Class in Hw as [Hw1 Hw2].
    apply Matches_Star_Class in Hy, Hz.
    exists x, y, z, w. rewrite !append_assoc.
    rewrite underscore_free_iff in Hx2, Hw2. repeat split; assumption.
  - intros (x & y & z & w & -> & Hx1 & Hx2 & Hy & Hz & Hw1 & Hw2).
    rewrite <- underscore_free_iff in Hx2, Hw2.
    replace (x ++ y ++ "_" ++ z ++ w)%string
      with ((((x ++ y) ++ "_") ++ z) ++ w)%string
      by now rewrite !append_assoc.
    repeat apply MCat.
    + now apply Matches_Plus_Class.
    + now apply Matches_Star_Class.
    + now apply Matches_char.
    + now apply Matches_Star_Class.
    + now apply Matches_Plus_Class.
Qed.

(** The grammar of an accepted spec is the grammar of its lowercased form. *)
Lemma parseShortcut_grammar (spec : string) (h : Handler) (macOS : bool)
      (s : Shortcut) :
  parseShortcut spec h macOS = Some s ->
  handler s = h /\ chained s = isChainedSpec (toLowerCase spec).
Proof.
  unfold parseShortcut.
  destruct (isChainedSpec _ && negb (test chainedShortcutRegex _)); [discriminate|].
  destruct (isCombinedSpec _ && negb (test combinedShortcutRegex _)); [discriminate|].
  intros [= <-]. split; reflexivity.
Qed.

(** An accepted chained shortcut has a key that the chain regex accepts. *)
Lemma parseShortcut_chained_key (spec : string) (h : Handler) (macOS : bool)
      (s : Shortcut) :
  parseShortcut spec h macOS = Some s -> chained s = true ->
  key s = toLowerCase spec /\ test chainedShortcutRegex (key s) = true.
Proof.
  intros Hp Hc. destruct (parseShortcut_grammar _ _ _ _ Hp) as [_ Hg].
  rewrite Hc in Hg. symmetry in Hg.
  rewrite (parseShortcut_chained spec h macOS Hg) in Hp.
  destruct (test chainedShortcutRegex (toLowerCase spec)) eqn:T; [|discriminate].
  injection Hp as <-. simpl. auto.
Qed.

Lemma in_parseConfig (config : list (string * Handler)) (macOS : bool)
      (s : Shortcut) :
  In s (parseConfig config macOS) <->
  exists spec h, In (spec, h) config /\ parseShortcut spec h macOS = Some s.
Proof.
  rewrite parseConfig_flat_map, in_flat_map. split.
  - intros ([spec h] & Hin & Hs). simpl in Hs.
    destruct (parseShortcut spec h macOS) as [s'|] eqn:P; [|contradiction].
    destruct Hs as [<-|[]]. now exists spec, h.
  - intros (spec & h & Hin & P). exists (spec, h). simpl.
    rewrite P. split; [assumption | now left].
Qed.

(** A string that the chain regex accepts neither starts nor ends with a
    hyphen. *)
Lemma regex_shape_no_leading_hyphen (k : string) :
  chainedRegexShape k -> forall rest, k <> String "-" rest.
Proof.
  intros (x & y & z & w & -> & Hx & Hxh & _) rest E.
  destruct x as [|c x]; [congruence|].
  simpl in E. injection E as -> _.
  rewrite includes_char in Hxh. simpl in Hxh. discriminate.
Qed.

Lemma append_snoc_inv (q w p : string) (c : ascii) :
  (q ++ w)%string = (p ++ String c "")%string ->
  w = "" \/ exists w', w = (w' ++ String c "")%string.
Proof.
  revert p. induction q as [|d q IH]; intros p E; simpl in E.
  - right. now exists p.
  - destruct p as [|d' p]; simpl in E.
    + injection E as _ E. apply append_eq_nil in E as [_ ->]. now left.
    + injection E as _ E. now apply (IH p).
Qed.

Lemma regex_shape_no_trailing_hyphen (k : string) :
  chainedRegexShape k -> forall p, k <> (p ++ "-")%string.
Proof.
  intros (x & y & z & w & -> & _ & _ & _ & _ & Hw & Hwh) p E.
  replace (x ++ y ++ "-" ++ z ++ w)%string
    with ((x ++ y ++ "-" ++ z) ++ w)%string in E
    by now rewrite !append_assoc.
  destruct (append_snoc_inv _ _ _ _ E) as [->|[w' ->]]; [congruence|].
  rewrite includes_char, all_append in Hwh. simpl in Hwh.
  rewrite andb_false_r in Hwh. discriminate.
Qed.

Lemma split_append_sep (sep : ascii) (a b : string) :
  includes a (String sep "") = false ->
  split sep (a ++ String sep b) = a :: split sep b.
Proof.
  rewrite includes_char, negb_false_iff.
  induction a as [|c a IH]; simpl; intros H.
  - now rewrite Ascii.eqb_refl.
  - apply andb_true_iff in H as [Hc Ha]. apply negb_true_iff in Hc.
    rewrite Hc, (IH Ha). reflexivity.
Qed.

(** A pattern [a-b] that the chain regex accepts, made of key names, has
    the two-segment shape. *)
Lemma plain_pattern_two_segments (a b : string) :
  plainKey a -> plainKey b ->
  test chainedShortcutRegex (a ++ "-" ++ b) = true ->
  twoSegmentShape (a ++ "-" ++ b) = true.
Proof.
  intros Ha Hb T. apply chainedShortcutRegex_shape in T.
  assert (Ha' : includes a "-" = false /\ a <> "").
  { destruct Ha as [Ha| ->].
    - split; [assumption|]. intros ->.
      now apply (regex_shape_no_leading_hyphen _ T b).
    - exfalso. now apply (regex_shape_no_leading_hyphen _ T ("-" ++ b)). }
  assert (Hb' : includes b "-" = false /\ b <> "").
  { destruct Hb as [Hb| ->].
    - split; [assumption|]. intros ->.
      now apply (regex_shape_no_trailing_hyphen _ T a).
    - exfalso. apply (regex_shape_no_trailing_hyphen _ T (a ++ "-")).
      now rewrite append_assoc. }
  destruct Ha' as [Ha1 Ha2], Hb' as [Hb1 Hb2].
  unfold twoSegmentShape. simpl append.
  rewrite (split_append_sep "-" a b Ha1), (split_no_sep "-" b Hb1).
  apply String.eqb_neq in Ha2, Hb2. now rewrite Ha2, Hb2.
Qed.

End ParserMore.

Import ParserMore.

(** X1: specs are case-insensitive: a spec and its lowercased form parse to
    the same shortcut, or are both rejected. *)
Theorem parseShortcut_case_insensitive :
  forall (spec : string) (h : Handler) (macOS : bool),
    parseShortcut (toLowerCase spec) h macOS = parseShortcut spec h macOS.
Proof.
  intros spec h macOS. unfold parseShortcut.
  now rewrite toLowerCase_idem.
Qed.

(** X2: a spec that contains an underscore is accepted exactly when its
    lowercased form has the shape of the combined regex: it neither starts
    nor ends with an underscore.  An accepted one is a combined shortcut,
    also when it contains a hyphen. *)
Theorem combined_spec_accepted_iff_regex_shape :
  forall (spec : string) (h : Handler) (macOS : bool),
    includes spec "_" = true ->
    (parseShortcut spec h macOS <> None
     <-> combinedRegexShape (toLowerCase spec))
    /\ (forall s, parseShortcut spec h macOS = Some s -> chained s = false)
    /\ (forall rest, toLowerCase spec = String "_" rest ->
                     parseShortcut spec h macOS = None)
    /\ (forall p, toLowerCase spec = (p ++ "_")%string ->
                  parseShortcut spec h macOS = None).
Proof.
  intros spec h macOS Hu. rewrite <- includes_underscore_lower in Hu.
  set (k := toLowerCase spec) in *.
  assert (Hc : isChainedSpec k = false)
    by (unfold isChainedSpec; now rewrite Hu, andb_false_r).
  assert (Hiff : parseShortcut spec h macOS <> None <-> combinedRegexShape k).
  { rewrite <- combinedShortcutRegex_shape. unfold parseShortcut. fold k.
    rewrite Hc. unfold isCombinedSpec. rewrite Hu. simpl.
    destruct (test combinedShortcutRegex k); simpl; split; congruence. }
  split; [exact Hiff|]. split; [|split].
  - intros s Hs. destruct (parseShortcut_grammar _ _ _ _ Hs) as [_ ->].
    exact Hc.
  - intros rest E.
    destruct (parseShortcut spec h macOS) eqn:P; [|reflexivity].
    exfalso. assert (Hne : combinedRegexShape k) by (apply Hiff; discriminate).
    destruct Hne as (x & y & z & w & E' & Hx & Hxu & _).
    rewrite E in E'. destruct x as [|c x]; [congruence|].
    simpl in E'. injection E' as <- _.
    rewrite includes_char in Hxu. simpl in Hxu. discriminate.
  - intros p E.
    destruct (parseShortcut spec h macOS) eqn:P; [|reflexivity].
    exfalso. assert (Hne : combinedRegexShape k) by (apply Hiff; discriminate).
    destruct Hne as (x & y & z & w & E' & _ & _ & _ & _ & Hw & Hwu).
    rewrite E in E'.
    replace (x ++ y ++ "_" ++ z ++ w)%string
      with ((x ++ y ++ "_" ++ z) ++ w)%string in E'
      by now rewrite !append_assoc.
    symmetry in E'.
    destruct (append_snoc_inv _ _ _ _ E') as [->|[w' ->]]; [congruence|].
    rewrite includes_char, all_append in Hwu. simpl in Hwu.
    rewrite andb_false_r in Hwu. discriminate.
Qed.

Lemma combined_spec_accepted_iff_regex_shape_witness :
  parseShortcut "Ctrl_Shift_S" 1 true <> None
  /\ parseShortcut "ctrl_" 1 true = None
  /\ parseShortcut "_k" 1 true = None.
Proof.
  pose proof (combined_spec_accepted_iff_regex_shape "Ctrl_Shift_S" 1 true eq_refl)
    as (Hiff & _).
  pose proof (combined_spec_accepted_iff_regex_shape "ctrl_" 1 true eq_refl)
    as (_ & _ & _ & Hend).
  pose proof (combined_spec_accepted_iff_regex_shape "_k" 1 true eq_refl)
    as (_ & _ & Hstart & _).
  split; [|split].
  - apply Hiff. exists "ctrl", "_shift", "", "s". repeat split; discriminate.
  - apply (Hend "ctrl"). reflexivity.
  - apply (Hstart "k"). reflexivity.
Defined.

(** X3: on a platform that is not macOS no accepted shortcut asks for the
    meta key without the control key. *)
Theorem non_mac_meta_implies_ctrl :
  forall (spec : string) (h : Handler) (s : Shortcut),
    parseShortcut spec h false = Some s ->
    metaKey s = true -> ctrlKey s = true.
Proof.
  intros spec h s. unfold parseShortcut.
  destruct (isChainedSpec _ && negb (test chainedShortcutRegex _)); [discriminate|].
  destruct (isCombinedSpec _ && negb (test combinedShortcutRegex _)); [discriminate|].
  intros [= <-]. cbn [metaKey ctrlKey].
  set (base := parseBase _ _). unfold normalizePlatform. cbn [negb andb].
  destruct (Base.metaKey base) eqn:Hm, (Base.ctrlKey base) eqn:Hc;
    cbn [negb andb Base.metaKey Base.ctrlKey]; congruence.
Qed.

Lemma non_mac_meta_implies_ctrl_witness :
  ctrlKey {| handler := 3; chained := false; key := "k"; ctrlKey := true;
             metaKey := true; shiftKey := false; altKey := false |} = true.
Proof.
  apply (non_mac_meta_implies_ctrl "meta_ctrl_k" 3); reflexivity.
Defined.

(** X4: the active set holds exactly the shortcuts of the accepted specs of
    the config, in the order of the config; each has the handler bound to
    its spec, and a rejected spec leaves no trace. *)
Theorem parseConfig_accepted_specs :
  forall (config : list (string * Handler)) (macOS : bool),
    (forall s, In s (parseConfig config macOS) <->
               exists spec h, In (spec, h) config
                              /\ parseShortcut spec h macOS = Some s
                              /\ handler s = h)
    /\ (forall other, parseConfig (config ++ other) macOS
                      = parseConfig config macOS ++ parseConfig other macOS)
    /\ List.length (parseConfig config macOS) <= List.length config.
Proof.
  intros config macOS. split; [|split].
  - intros s. rewrite in_parseConfig. split.
    + intros (spec & h & Hin & P). exists spec, h.
      destruct (parseShortcut_grammar _ _ _ _ P). auto.
    + intros (spec & h & Hin & P & _). now exists spec, h.
  - intros other. now rewrite !parseConfig_flat_map, flat_map_app.
  - rewrite parseConfig_flat_map.
    induction config as [|[spec h] config IH]; simpl; [lia|].
    rewrite length_app. destruct (parseShortcut spec h macOS); simpl; lia.
Qed.

Lemma parseConfig_accepted_specs_witness :
  In {| handler := 2; chained := true; key := "g-h"; ctrlKey := false;
        metaKey := false; shiftKey := false; altKey := false |}
     (parseConfig [("ctrl_", 1); ("G-H", 2)] true).
Proof.
  apply (proj1 (parseConfig_accepted_specs [("ctrl_", 1); ("G-H", 2)] true)).
  exists "G-H", 2. repeat split. right; left; reflexivity.
Defined.

(** ** More on the dispatcher *)

Module DispatchMore.
Import JsString StringFacts DispatcherFacts ParserMore.

Lemma prefix_includes (s p : string) :
  String.prefix p s = true -> includes s p = true.
Proof. intros H. rewrite includes_eq. now rewrite H. Qed.

Lemma includes_after_hyphen (s k : string) :
  includes s ("-" ++ k) = true -> includes s k = true.
Proof.
  intros H. apply includes_split in H as (l & r & ->).
  pose proof (includes_append (l ++ "-") k r) as G.
  now rewrite append_assoc in G.
Qed.

Lemma In_invoked (h : Handler) (acts : list Action) :
  In h (invoked acts) <-> In (Call h) acts.
Proof.
  induction acts as [|[|h'] acts IH]; simpl.
  - tauto.
  - rewrite IH. split; [auto | intros [H|H]; [discriminate | assumption]].
  - rewrite IH. split; intros [H|H]; auto; left; congruence.
Qed.

(** The first element that satisfies a test, and what precedes it. *)
Lemma find_first {A : Type} (f : A -> bool) (l : list A) (x : A) :
  find f l = Some x ->
  exists before rest, l = before ++ x :: rest /\ f x = true
                      /\ forall y, In y before -> f y = false.
Proof.
  induction l as [|a l IH]; simpl; [discriminate|].
  destruct (f a) eqn:Fa.
  - intros [= <-]. exists [], l. repeat split; auto. intros y [].
  - intros H. destruct (IH H) as (before & rest & -> & Fx & Hb).
    exists (a :: before), rest. repeat split; auto.
    intros y [<-|Hy]; auto.
Qed.

Lemma fireTimer_twice (t t' : Z) (st : State) :
  (t <= t')%Z -> fireTimer t' (fireTimer t st) = fireTimer t' st.
Proof.
  intros Hle. unfold fireTimer at 2 3.
  destruct (timer st) as [d|] eqn:T.
  - destruct (Z.leb_spec d t) as [Hd|Hd].
    + assert (Hd' : (d <=? t')%Z = true) by (apply Z.leb_le; lia).
      now rewrite Hd'.
    + unfold fireTimer. now rewrite T.
  - unfold fireTimer. now rewrite T.
Qed.

Section WithShortcuts.
Variable shortcuts : list Shortcut.
Variable chainDelay : Z.
Variable disableOnInputs : bool.

Lemma keyBuildsChain_keyInSomeChain (k : string) :
  keyBuildsChain shortcuts k = true -> keyInSomeChain shortcuts k = true.
Proof.
  unfold keyBuildsChain, keyInSomeChain. rewrite !existsb_exists.
  intros (s & Hin & H). exists s. split; [assumption|].
  apply andb_true_iff in H as [-> H]. simpl.
  apply orb_true_iff in H as [H|H].
  - now apply prefix_includes.
  - now apply includes_after_hyphen.
Qed.

Lemma matchCombined_Some (e : KeyboardEvent.t) (h : Handler) :
  matchCombined shortcuts e = Some h ->
  exists s, find (combinedMatches e) shortcuts = Some s /\ handler s = h
            /\ In s shortcuts /\ chained s = false.
Proof.
  unfold matchCombined.
  destruct (find _ shortcuts) as [s|] eqn:F; [|discriminate].
  simpl. intros [= <-]. exists s. destruct (find_some _ _ F) as [Hin Hm].
  repeat split; auto. unfold combinedMatches in Hm.
  rewrite !andb_true_iff in Hm. destruct Hm as [[[[[Hc _] _] _] _] _].
  now apply negb_true_iff in Hc.
Qed.

(** The event reaches the state only after the due timer has run. *)
Lemma dispatch_after_timer (i : Input) (st : State) :
  dispatch shortcuts chainDelay disableOnInputs i (fireTimer (now i) st)
  = dispatch shortcuts chainDelay disableOnInputs i st.
Proof.
  unfold dispatch. now rewrite fireTimer_twice by lia.
Qed.

(** What an event does, by cases: it calls nothing and leaves the state as
    it is or records its key; or its combined match is called; or the
    chain it completes is called. *)
Lemma dispatch_cases (i : Input) (st : State) :
  let st0 := fireTimer (now i) st in
  let k := toLowerCase (KeyboardEvent.key (event i)) in
  let r := dispatch shortcuts chainDelay disableOnInputs i st in
  (fst r = []
   /\ (snd r = st0
       \/ (keyBuildsChain shortcuts k = true /\ k <> ""
           /\ snd r = debouncedReset chainDelay (now i)
                        {| history := history st0 ++ [k]; timer := timer st0 |})))
  \/ (exists h, fst r = [PreventDefault; Call h]
                /\ matchCombined shortcuts (event i) = Some h
                /\ snd r = resetHistory st0)
  \/ (exists h, fst r = [PreventDefault; Call h]
                /\ matchChained shortcuts (history st0) k = Some h
                /\ snd r = resetHistory st0).
Proof.
  intros st0 k r. subst r. unfold dispatch. fold st0.
  unfold onEventFired, onKeyDown. fold k.
  destruct (isTyping disableOnInputs (activeElement i)).
  { left. cbn [orb fst snd app].
    destruct (KeyboardEvent.type (event i)); [|now auto].
    destruct (String.eqb _ _); auto. }
  destruct (KeyboardEvent.type (event i)); [|left; now auto].
  cbn [orb].
  assert (Hk : String.eqb (KeyboardEvent.key (event i)) "" = false -> k <> "").
  { intros E Hk. apply toLowerCase_nil in Hk. apply String.eqb_neq in E.
    contradiction. }
  destruct (keyInSomeChain shortcuts k) eqn:Hin.
  - cbn [fst snd app].
    destruct (String.eqb (KeyboardEvent.key (event i)) "") eqn:E; [left; now auto|].
    destruct (matchChained shortcuts (history st0) k) as [h|] eqn:M.
    + right; right. now exists h.
    + destruct (keyBuildsChain shortcuts k) eqn:B; left; split; auto.
  - destruct (matchCombined shortcuts (event i)) as [h|] eqn:C.
    + right; left. exists h. cbn [fst snd].
      destruct (String.eqb (KeyboardEvent.key (event i)) "") eqn:E; [now auto|].
      cbn [resetHistory history]. rewrite matchChained_idle.
      destruct (keyBuildsChain shortcuts k) eqn:B.
      * apply keyBuildsChain_keyInSomeChain in B. congruence.
      * now auto.
    + cbn [fst snd app].
      destruct (String.eqb (KeyboardEvent.key (event i)) "") eqn:E; [left; now auto|].
      destruct (matchChained shortcuts (history st0) k) as [h|] eqn:M.
      * right; right. now exists h.
      * destruct (keyBuildsChain shortcuts k) eqn:B; left; split; auto.
Qed.

(** A property of the state that every event keeps holds after a stream,
    and every action of the stream is the action of one of its events on a
    state with the property. *)
Lemma run_invariant (P : State -> Prop) (Q : Input -> Prop) :
  (forall i st, Q i -> P st ->
                P (snd (dispatch shortcuts chainDelay disableOnInputs i st))) ->
  forall inputs st,
    Forall Q inputs -> P st ->
    P (snd (run shortcuts chainDelay disableOnInputs inputs st))
    /\ forall a, In a (fst (run shortcuts chainDelay disableOnInputs inputs st)) ->
                 exists i st', In i inputs /\ Q i /\ P st'
                   /\ In a (fst (dispatch shortcuts chainDelay disableOnInputs i st')).
Proof.
  intros Hstep inputs. induction inputs as [|i inputs IH]; intros st HQ HP.
  - split; [exact HP | intros a []].
  - inversion HQ as [|? ? Hi Hrest]; subst. cbn [run fst snd].
    destruct (IH _ Hrest (Hstep i st Hi HP)) as [IHP IHa].
    split; [exact IHP|].
    intros a Ha. apply in_app_or in Ha as [Ha|Ha].
    + exists i, st. repeat split; auto. now left.
    + destruct (IHa a Ha) as (j & st' & Hj & HQj & HP' & Hin).
      exists j, st'. repeat split; auto. now right.
Qed.

End WithShortcuts.
End DispatchMore.

Import DispatchMore.

(** X5: an event calls at most one handler, and with it prevents the
    default action; after a call the chain history is empty.  So a combined
    shortcut and a chained shortcut never both fire on one key press, and a
    fired shortcut never leaves a chain half entered. *)
Theorem dispatch_at_most_one_handler :
  forall (shortcuts : list Shortcut) (chainDelay : Z) (disableOnInputs : bool)
         (i : Input) (st : State),
    let r := dispatch shortcuts chainDelay disableOnInputs i st in
    fst r = []
    \/ exists s, In s shortcuts
                 /\ fst r = [PreventDefault; Call (handler s)]
                 /\ history (snd r) = [].
Proof.
  intros shortcuts chainDelay disableOnInputs i st r.
  destruct (dispatch_cases shortcuts chainDelay disableOnInputs i st)
    as [[H _]|[(h & Ha & Hm & Hs)|(h & Ha & Hm & Hs)]]; fold r in H || fold r in Ha, Hs.
  - now left.
  - right. apply matchCombined_Some in Hm as (s & _ & <- & Hin & _).
    exists s. rewrite Hs. auto.
  - right. apply matchChained_Some in Hm as (s & Hin & _ & _ & <-).
    exists s. rewrite Hs. auto.
Qed.

(** X6: first match wins.  A handler that an event calls is the handler of
    a shortcut of the active set that no earlier shortcut of the set equals
    in grammar, key and modifier flags: a spec that parses like an earlier
    one is never the one that fires. *)
Theorem first_match_wins :
  forall (shortcuts : list Shortcut) (chainDelay : Z) (disableOnInputs : bool)
         (i : Input) (st : State) (h : Handler),
    In (Call h) (fst (dispatch shortcuts chainDelay disableOnInputs i st)) ->
    exists before s rest,
      shortcuts = before ++ s :: rest /\ handler s = h
      /\ forall s', In s' before -> signature s' <> signature s.
Proof.
  intros shortcuts chainDelay disableOnInputs i st h Hin.
  assert (Hsig : forall (f : Shortcut -> bool),
             (forall s s', signature s' = signature s -> f s' = f s) ->
             forall s, find f shortcuts = Some s ->
             exists before rest,
               shortcuts = before ++ s :: rest
               /\ forall s', In s' before -> signature s' <> signature s).
  { intros f Hf s F. destruct (find_first f shortcuts s F) as (b & r & E & Fs & Hb).
    exists b, r. split; [assumption|]. intros s' Hs' Heq.
    rewrite <- (Hf s s' Heq), (Hb s' Hs') in Fs. discriminate. }
  destruct (dispatch_cases shortcuts chainDelay disableOnInputs i st)
    as [[H _]|[(h' & Ha & Hm & _)|(h' & Ha & Hm & _)]].
  - rewrite H in Hin. contradiction.
  - rewrite Ha in Hin. destruct Hin as [Hin|[Hin|[]]]; [discriminate|].
    injection Hin as ->.
    apply matchCombined_Some in Hm as (s & F & <- & _).
    destruct (Hsig (combinedMatches (event i))) with (s := s)
      as (b & r & E & Hb); auto.
    + intros s1 s2 Heq. unfold signature in Heq. unfold combinedMatches.
      injection Heq as -> -> -> -> -> ->. reflexivity.
    + now exists b, s, r.
  - rewrite Ha in Hin. destruct Hin as [Hin|[Hin|[]]]; [discriminate|].
    injection Hin as ->.
    unfold matchChained in Hm.
    destruct (history (fireTimer (now i) st)) as [|x hist] eqn:Hh; [discriminate|].
    destruct (find _ shortcuts) as [s|] eqn:F; [|discriminate].
    injection Hm as <-.
    destruct (Hsig (chainedMatches (x :: hist)
                      (toLowerCase (KeyboardEvent.key (event i))))) with (s := s)
      as (b & r & E & Hb); auto.
    + intros s1 s2 Heq. unfold signature in Heq. unfold chainedMatches.
      injection Heq as -> -> _. reflexivity.
    + now exists b, s, r.
Qed.

Lemma first_match_wins_witness :
  let shortcuts := parseConfig [("Ctrl_S", 1); ("ctrl_s", 2)] false in
  let e := {| KeyboardEvent.type := keydown; KeyboardEvent.key := "s";
              KeyboardEvent.ctrlKey := true; KeyboardEvent.metaKey := false;
              KeyboardEvent.shiftKey := false; KeyboardEvent.altKey := false |} in
  exists before s rest,
    shortcuts = before ++ s :: rest /\ handler s = 1
    /\ forall s', In s' before -> signature s' <> signature s.
Proof.
  intros shortcuts e.
  apply (first_match_wins shortcuts 800%Z true (at_time 0 e) initialState 1).
  right; left; reflexivity.
Defined.

(** ** Streams of events *)

Module StreamFacts.
Import JsString StringFacts DispatcherFacts ParserMore DispatchMore.

Lemma fireTimer_history (t : Z) (st : State) :
  history (fireTimer t st) = [] \/ fireTimer t st = st.
Proof.
  unfold fireTimer. destruct (timer st) as [d|]; [|now right].
  destruct (d <=? t)%Z; [now left | now right].
Qed.

Lemma last_In {A : Type} (l : list A) (d : A) : l <> [] -> In (last l d) l.
Proof.
  induction l as [|a [|b l] IH]; intros H; [congruence | now left |].
  right. apply IH. discriminate.
Qed.

Section WithShortcuts.
Variable shortcuts : list Shortcut.
Variable chainDelay : Z.
Variable disableOnInputs : bool.

Lemma dispatch_keyup (i : Input) (st : State) :
  KeyboardEvent.type (event i) = keyup ->
  dispatch shortcuts chainDelay disableOnInputs i st = ([], fireTimer (now i) st).
Proof.
  intros H. unfold dispatch, onEventFired. rewrite H.
  now rewrite orb_true_r.
Qed.

Lemma run_keydowns (inputs : list Input) :
  forall (st st' : State) (t0 : Z),
    Forall (fun j => (t0 <= now j)%Z) inputs ->
    timeOrdered inputs ->
    (forall t', (t0 <= t')%Z -> fireTimer t' st = fireTimer t' st') ->
    fst (run shortcuts chainDelay disableOnInputs inputs st)
    = fst (run shortcuts chainDelay disableOnInputs (keydownsOnly inputs) st').
Proof.
  induction inputs as [|i inputs IH]; intros st st' t0 Hfrom Hord Hsame;
    [reflexivity|].
  inversion Hfrom as [|? ? Hi Hrest]; subst. destruct Hord as [Hnext Hord].
  assert (E : dispatch shortcuts chainDelay disableOnInputs i st
              = dispatch shortcuts chainDelay disableOnInputs i st').
  { rewrite <- (dispatch_after_timer _ _ _ i st),
            <- (dispatch_after_timer _ _ _ i st').
    now rewrite (Hsame _ Hi). }
  cbn [run keydownsOnly filter fst snd].
  destruct (KeyboardEvent.type (event i)) eqn:Ty.
  - cbn [run fst snd]. rewrite E. f_equal.
    apply (IH _ _ (now i)); auto.
  - rewrite (dispatch_keyup i st Ty). cbn [fst snd app].
    apply (IH _ _ (now i)); auto.
    intros t' Ht'. rewrite fireTimer_twice by assumption.
    apply Hsame. lia.
Qed.

End WithShortcuts.
End StreamFacts.

Import StreamFacts.

(** X7: key releases never matter.  On a stream of events that arrive in
    the order of their times, the actions performed are those performed on
    the key presses of the stream alone. *)
Theorem keyup_events_are_ignored :
  forall (shortcuts : list Shortcut) (chainDelay : Z) (disableOnInputs : bool)
         (inputs : list Input) (st : State),
    timeOrdered inputs ->
    fst (run shortcuts chainDelay disableOnInputs inputs st)
    = fst (run shortcuts chainDelay disableOnInputs (keydownsOnly inputs) st).
Proof.
  intros shortcuts chainDelay disableOnInputs inputs st Hord.
  destruct inputs as [|i inputs]; [reflexivity|].
  apply (run_keydowns shortcuts chainDelay disableOnInputs _ st st (now i));
    auto.
  destruct Hord as [Hnext _]. constructor; [lia | assumption].
Qed.

Lemma keyup_events_are_ignored_witness :
  let shortcuts := parseConfig [("g-h", 1)] false in
  let release (k : string) :=
    {| KeyboardEvent.type := keyup; KeyboardEvent.key := k;
       KeyboardEvent.ctrlKey := false; KeyboardEvent.metaKey := false;
       KeyboardEvent.shiftKey := false; KeyboardEvent.altKey := false |} in
  fst (run shortcuts 800 true
           [at_time 0 (press "g"); at_time 50 (release "g");
            at_time 100 (press "h"); at_time 150 (release "h")] initialState)
  = fst (run shortcuts 800 true
             [at_time 0 (press "g"); at_time 100 (press "h")] initialState).
Proof.
  intros shortcuts release.
  apply (keyup_events_are_ignored shortcuts 800%Z true
           [at_time 0 (press "g"); at_time 50 (release "g");
            at_time 100 (press "h"); at_time 150 (release "h")] initialState).
  simpl. repeat split; repeat constructor; simpl; lia.
Defined.

(** X8: the chain history only ever holds lowercased, non-empty keys that
    start a chain pattern of the active set or follow a hyphen in one. *)
Theorem history_holds_chain_keys :
  forall (shortcuts : list Shortcut) (chainDelay : Z) (disableOnInputs : bool)
         (inputs : list Input),
    Forall (fun k => k <> "" /\ toLowerCase k = k
                     /\ keyBuildsChain shortcuts k = true)
           (history (snd (run shortcuts chainDelay disableOnInputs inputs
                              initialState))).
Proof.
  intros shortcuts chainDelay disableOnInputs inputs.
  apply (run_invariant shortcuts chainDelay disableOnInputs
           (fun st => Forall (fun k => k <> "" /\ toLowerCase k = k
                                       /\ keyBuildsChain shortcuts k = true)
                             (history st))
           (fun _ => True)).
  - intros i st _ HP.
    assert (HP0 : Forall (fun k => k <> "" /\ toLowerCase k = k
                                   /\ keyBuildsChain shortcuts k = true)
                         (history (fireTimer (now i) st))).
    { destruct (fireTimer_history (now i) st) as [->| ->]; auto. }
    destruct (dispatch_cases shortcuts chainDelay disableOnInputs i st)
      as [[_ [->|(Hb & Hk & ->)]]|[(h & _ & _ & ->)|(h & _ & _ & ->)]];
      try (now constructor); auto.
    unfold debouncedReset. destruct (chainDelay <=? 0)%Z; [constructor|].
    cbn [history]. apply Forall_app. split; [assumption|].
    constructor; [|constructor]. repeat split; auto.
    apply toLowerCase_idem.
  - apply Forall_forall. auto.
  - constructor.
Qed.

(** X9: a chain that is being entered always has its reset scheduled:
    after any stream of events the history is empty or a timer is pending. *)
Theorem unfinished_chain_has_pending_timer :
  forall (shortcuts : list Shortcut) (chainDelay : Z) (disableOnInputs : bool)
         (inputs : list Input),
    let st := snd (run shortcuts chainDelay disableOnInputs inputs initialState) in
    history st = [] \/ exists deadline, timer st = Some deadline.
Proof.
  intros shortcuts chainDelay disableOnInputs inputs.
  apply (run_invariant shortcuts chainDelay disableOnInputs
           (fun st => history st = [] \/ exists deadline, timer st = Some deadline)
           (fun _ => True)).
  - intros i st _ HP.
    assert (HP0 : history (fireTimer (now i) st) = []
                  \/ exists deadline, timer (fireTimer (now i) st) = Some deadline).
    { destruct (fireTimer_history (now i) st) as [H| ->]; auto. }
    destruct (dispatch_cases shortcuts chainDelay disableOnInputs i st)
      as [[_ [->|(Hb & Hk & ->)]]|[(h & _ & _ & ->)|(h & _ & _ & ->)]];
      try (now left); auto.
    unfold debouncedReset. destruct (chainDelay <=? 0)%Z; [now left|].
    right. now eexists.
  - apply Forall_forall. auto.
  - now left.
Qed.

(** X10: with a chain delay that is not positive no chain can be entered:
    the history stays empty, and every handler called is the handler of a
    combined shortcut. *)
Theorem nonpositive_delay_disables_chains :
  forall (shortcuts : list Shortcut) (chainDelay : Z) (disableOnInputs : bool)
         (inputs : list Input),
    (chainDelay <= 0)%Z ->
    let r := run shortcuts chainDelay disableOnInputs inputs initialState in
    history (snd r) = []
    /\ forall h, In h (invoked (fst r)) ->
                 exists s, In s shortcuts /\ chained s = false /\ handler s = h.
Proof.
  intros shortcuts chainDelay disableOnInputs inputs Hd r.
  destruct (run_invariant shortcuts chainDelay disableOnInputs
              (fun st => history st = []) (fun _ => True)) with
      (inputs := inputs) (st := initialState) as [Hh Ha].
  - intros i st _ HP.
    pose proof (fireTimer_idle (now i) st HP) as HP0.
    destruct (dispatch_cases shortcuts chainDelay disableOnInputs i st)
      as [[_ [->|(Hb & Hk & ->)]]|[(h & _ & _ & ->)|(h & _ & _ & ->)]];
      auto.
    unfold debouncedReset. apply Z.leb_le in Hd. now rewrite Hd.
  - apply Forall_forall. auto.
  - reflexivity.
  - split; [exact Hh|]. intros h Hin. apply In_invoked in Hin.
    destruct (Ha _ Hin) as (i & st' & _ & _ & HP & Hcall).
    pose proof (fireTimer_idle (now i) st' HP) as HP0.
    destruct (dispatch_cases shortcuts chainDelay disableOnInputs i st')
      as [[E _]|[(h' & E & Hm & _)|(h' & E & Hm & _)]]; rewrite E in Hcall.
    + contradiction.
    + destruct Hcall as [Hc|[Hc|[]]]; [discriminate|]. injection Hc as ->.
      apply matchCombined_Some in Hm as (s & _ & <- & Hs & Hc).
      now exists s.
    + rewrite HP0 in Hm. discriminate.
Qed.

Lemma nonpositive_delay_disables_chains_witness :
  let shortcuts := parseConfig [("g-h", 1); ("escape", 2)] false in
  invoked (fst (run shortcuts 0 true
                    [at_time 0 (press "g"); at_time 1 (press "h");
                     at_time 2 (press "Escape")] initialState)) = [2]
  /\ exists s, In s shortcuts /\ chained s = false /\ handler s = 2.
Proof.
  intros shortcuts. split; [reflexivity|].
  refine (proj2 (nonpositive_delay_disables_chains shortcuts 0%Z true
                   [at_time 0 (press "g"); at_time 1 (press "h");
                    at_time 2 (press "Escape")] _) 2 _).
  - lia.
  - left; reflexivity.
Defined.

(** X11: a chained spec of more than two segments is accepted but dead.
    On a stream whose keys are key names (no hyphen inside, or the hyphen
    key itself), every handler called is the handler of a combined shortcut
    or of a chained shortcut of the two-segment shape. *)
Theorem only_two_segment_chains_fire :
  forall (config : list (string * Handler)) (macOS : bool)
         (chainDelay : Z) (disableOnInputs : bool) (inputs : list Input),
    Forall (fun i => plainKey (toLowerCase (KeyboardEvent.key (event i)))) inputs ->
    forall h,
      In h (invoked (fst (run (parseConfig config macOS) chainDelay
                              disableOnInputs inputs initialState))) ->
      exists s, In s (parseConfig config macOS) /\ handler s = h
                /\ (chained s = false \/ twoSegmentShape (key s) = true).
Proof.
  intros config macOS chainDelay disableOnInputs inputs Hplain h Hin.
  set (shortcuts := parseConfig config macOS) in *.
  apply In_invoked in Hin.
  destruct (run_invariant shortcuts chainDelay disableOnInputs
              (fun st => Forall plainKey (history st))
              (fun i => plainKey (toLowerCase (KeyboardEvent.key (event i)))))
    with (inputs := inputs) (st := initialState) as [_ Ha]; auto.
  - intros i st HQ HP.
    assert (HP0 : Forall plainKey (history (fireTimer (now i) st))).
    { destruct (fireTimer_history (now i) st) as [->| ->]; auto. }
    destruct (dispatch_cases shortcuts chainDelay disableOnInputs i st)
      as [[_ [->|(Hb & Hk & ->)]]|[(h' & _ & _ & ->)|(h' & _ & _ & ->)]];
      try (now constructor); auto.
    unfold debouncedReset. destruct (chainDelay <=? 0)%Z; [constructor|].
    cbn [history]. apply Forall_app. split; [assumption|].
    constructor; [assumption | constructor].
  - destruct (Ha _ Hin) as (i & st' & _ & HQ & HP & Hcall).
    assert (HP0 : Forall plainKey (history (fireTimer (now i) st'))).
    { destruct (fireTimer_history (now i) st') as [->| ->]; auto. }
    destruct (dispatch_cases shortcuts chainDelay disableOnInputs i st')
      as [[E _]|[(h' & E & Hm & _)|(h' & E & Hm & _)]]; rewrite E in Hcall.
    + contradiction.
    + destruct Hcall as [Hc|[Hc|[]]]; [discriminate|]. injection Hc as ->.
      apply matchCombined_Some in Hm as (s & _ & <- & Hs & Hc).
      exists s. auto.
    + destruct Hcall as [Hc|[Hc|[]]]; [discriminate|]. injection Hc as ->.
      assert (Hne : history (fireTimer (now i) st') <> [])
        by (intros E'; rewrite E' in Hm; discriminate).
      apply matchChained_Some in Hm as (s & Hs & Hc & Hk & <-).
      exists s. repeat split; auto. right.
      apply in_parseConfig in Hs as (spec & h0 & _ & P).
      destruct (parseShortcut_chained_key _ _ _ _ P Hc) as [_ T].
      rewrite Hk in *. apply plain_pattern_two_segments; auto.
      apply (proj1 (Forall_forall _ _) HP0). now apply last_In.
Qed.

Lemma only_two_segment_chains_fire_witness :
  let config := [("a-b-c", 1); ("g-h", 2)] in
  invoked (fst (run (parseConfig config false) 800 true
                    [at_time 0 (press "a"); at_time 10 (press "b");
                     at_time 20 (press "c"); at_time 30 (press "g");
                     at_time 40 (press "h")] initialState)) = [2]
  /\ exists s, In s (parseConfig config false) /\ handler s = 2
               /\ (chained s = false \/ twoSegmentShape (key s) = true).
Proof.
  intros config. split; [vm_compute; reflexivity|].
  apply (only_two_segment_chains_fire config false 800%Z true
           [at_time 0 (press "a"); at_time 10 (press "b");
            at_time 20 (press "c"); at_time 30 (press "g");
            at_time 40 (press "h")]).
  - repeat (constructor; [left; reflexivity|]). constructor.
  - vm_compute. left; reflexivity.
Defined.

(** ** More on the registry and on the conflict detector *)

Module TableMore.
Import MapFacts.

Section WithValue.
Variable V : Type.
Implicit Types (m : JsMap.t V) (k : string) (v : V).

Lemma get_delete_same m k : JsMap.get (JsMap.delete m k) k = None.
Proof.
  unfold JsMap.delete. induction m as [|[k' v'] m IH]; simpl; [reflexivity|].
  destruct (String.eqb k' k) eqn:E; simpl; [exact IH|]. now rewrite E.
Qed.

Lemma get_delete_other m k k' :
  k <> k' -> JsMap.get (JsMap.delete m k) k' = JsMap.get m k'.
Proof.
  intros Hne. unfold JsMap.delete.
  induction m as [|[k0 v0] m IH]; simpl; [reflexivity|].
  destruct (String.eqb_spec k0 k) as [->|Hk]; simpl.
  - apply String.eqb_neq in Hne. now rewrite Hne.
  - now rewrite IH.
Qed.

Lemma In_keys_get m k : In k (JsMap.keys m) <-> JsMap.get m k <> None.
Proof.
  pose proof (get_None_keys V m k) as H.
  destruct (JsMap.get m k); split; intros G; try congruence.
  - destruct (in_dec string_dec k (JsMap.keys m)) as [Hin|Hn]; [assumption|].
    apply H in Hn. discriminate.
  - exfalso. apply (proj1 H); auto.
Qed.

End WithValue.
End TableMore.

Module RegistryMore.
Import ShortcutRegistry MapFacts TableMore.

Lemma checkForDuplicates_other (config : list (string * Handler))
      (c l : string) (registered : t) (k : string) :
  ~ In k (map fst config) ->
  getRegistration (checkForDuplicates config c l registered) k
  = getRegistration registered k.
Proof.
  unfold checkForDuplicates, getRegistration.
  revert registered. induction config as [|[k0 h0] config IH];
    intros registered Hn; simpl in *; [reflexivity|].
  rewrite IH by tauto. unfold register.
  apply get_set_other. tauto.
Qed.

End RegistryMore.

Import TableMore RegistryMore.

(** X12: [unregister] removes the record of its shortcut and nothing else;
    the shortcut is then not registered, whatever was registered before. *)
Theorem unregister_removes_one_shortcut :
  forall (registered : ShortcutRegistry.t) (shortcut other : string),
    ShortcutRegistry.getRegistration
      (ShortcutRegistry.unregister registered shortcut) shortcut = None
    /\ ShortcutRegistry.isRegistered
         (ShortcutRegistry.unregister registered shortcut) shortcut = false
    /\ ~ In shortcut (ShortcutRegistry.getRegisteredShortcuts
                        (ShortcutRegistry.unregister registered shortcut))
    /\ (shortcut <> other ->
        ShortcutRegistry.getRegistration
          (ShortcutRegistry.unregister registered shortcut) other
        = ShortcutRegistry.getRegistration registered other).
Proof.
  intros registered shortcut other.
  unfold ShortcutRegistry.getRegistration, ShortcutRegistry.isRegistered,
    ShortcutRegistry.unregister, ShortcutRegistry.getRegisteredShortcuts,
    JsMap.has.
  pose proof (get_delete_same _ registered shortcut) as H.
  repeat split.
  - exact H.
  - now rewrite H.
  - now apply get_None_keys.
  - intros Hne. now apply get_delete_other.
Qed.

Lemma unregister_removes_one_shortcut_witness :
  let registered :=
    ShortcutRegistry.after
      [ShortcutRegistry.Register "ctrl_s" 1 "Editor" "Editor.vue:3";
       ShortcutRegistry.Register "g-h" 2 "Nav" "Nav.vue:9"] in
  ShortcutRegistry.getRegistration
    (ShortcutRegistry.unregister registered "ctrl_s") "g-h"
  = ShortcutRegistry.getRegistration registered "g-h".
Proof.
  intros registered.
  apply (unregister_removes_one_shortcut registered "ctrl_s" "g-h").
  discriminate.
Defined.

(** X13: [checkForDuplicates] records every shortcut of the config for the
    calling component: afterwards each key of the config is registered
    with that component, that location and the handler of the config,
    whoever had registered it before, and the other records are untouched. *)
Theorem checkForDuplicates_takes_over :
  forall (config : list (string * Handler)) (componentName loc : string)
         (registered : ShortcutRegistry.t),
    NoDup (map fst config) ->
    (forall shortcut h,
        In (shortcut, h) config ->
        ShortcutRegistry.getRegistration
          (ShortcutRegistry.checkForDuplicates config componentName loc registered)
          shortcut
        = Some {| ShortcutRegistry.component := componentName;
                  ShortcutRegistry.handler := h;
                  ShortcutRegistry.location := loc |})
    /\ (forall shortcut,
           ~ In shortcut (map fst config) ->
           ShortcutRegistry.getRegistration
             (ShortcutRegistry.checkForDuplicates config componentName loc registered)
             shortcut
           = ShortcutRegistry.getRegistration registered shortcut).
Proof.
  intros config c l registered Hnd. split.
  - revert registered. induction config as [|[k0 h0] config IH];
      intros registered shortcut h Hin; [contradiction|].
    inversion Hnd as [|? ? Hnotin Hnd']; subst.
    destruct Hin as [[= -> ->]|Hin].
    + change (ShortcutRegistry.checkForDuplicates ((shortcut, h) :: config) c l registered)
        with (ShortcutRegistry.checkForDuplicates config c l
                (ShortcutRegistry.register registered shortcut h c l)).
      rewrite checkForDuplicates_other by assumption.
      apply MapFacts.get_set_same.
    + now apply (IH Hnd').
  - intros shortcut Hn. now apply checkForDuplicates_other.
Qed.

Lemma checkForDuplicates_takes_over_witness :
  let registered :=
    ShortcutRegistry.checkForDuplicates [("ctrl_d", 1)] "ComponentA" "A.vue:5"
      ShortcutRegistry.create in
  ShortcutRegistry.getRegistration
    (ShortcutRegistry.checkForDuplicates [("ctrl_d", 2); ("g-h", 3)]
       "ComponentB" "B.vue:7" registered) "ctrl_d"
  = Some {| ShortcutRegistry.component := "ComponentB";
            ShortcutRegistry.handler := 2;
            ShortcutRegistry.location := "B.vue:7" |}.
Proof.
  intros registered.
  apply (proj1 (checkForDuplicates_takes_over [("ctrl_d", 2); ("g-h", 3)]
                  "ComponentB" "B.vue:7" registered
                  ltac:(repeat constructor; simpl; intuition discriminate))).
  left; reflexivity.
Defined.

(** X14: the conflict detector never reports a conflict.  Whatever keys
    were registered and unregistered, under whatever owners, the table
    holds one owner per key and [getConflicts()] is empty. *)
Theorem detector_never_reports :
  forall ops : list HotkeyConflictDetector.Op,
    HotkeyConflictDetector.getConflicts (HotkeyConflictDetector.after ops) = []
    /\ NoDup (map fst (HotkeyConflictDetector.getAllRegistered
                         (HotkeyConflictDetector.after ops))).
Proof.
  intros ops. split.
  - apply ConflictFacts.getConflicts_after.
  - apply ConflictFacts.detector_after_NoDup.
Qed.

(** X15: a registration warns only about the scope of the record it
    replaces: registering a key again warns exactly when the scope is the
    one last registered for it, and the new owner replaces the old one in
    both cases; a key registered again under another scope is overwritten
    in silence. *)
Theorem detector_warns_on_same_scope_only :
  forall (registeredKeys : HotkeyConflictDetector.t)
         (k sc1 c1 sc2 c2 : string),
    let first := HotkeyConflictDetector.register registeredKeys k sc1 c1 in
    HotkeyConflictDetector.registerWarns first k sc2 = String.eqb sc1 sc2
    /\ JsMap.get (HotkeyConflictDetector.register first k sc2 c2) k
       = Some {| HotkeyConflictDetector.scope := sc2;
                 HotkeyConflictDetector.component := c2 |}
    /\ (JsMap.get registeredKeys k = None ->
        HotkeyConflictDetector.registerWarns registeredKeys k sc1 = false).
Proof.
  intros registeredKeys k sc1 c1 sc2 c2 first. repeat split.
  - unfold HotkeyConflictDetector.registerWarns, first,
      HotkeyConflictDetector.register.
    now rewrite MapFacts.get_set_same.
  - apply MapFacts.get_set_same.
  - intros H. unfold HotkeyConflictDetector.registerWarns. now rewrite H.
Qed.

Lemma detector_warns_on_same_scope_only_witness :
  HotkeyConflictDetector.registerWarns HotkeyConflictDetector.create
    "ctrl+s" "demo" = false.
Proof.
  apply (detector_warns_on_same_scope_only HotkeyConflictDetector.create
           "ctrl+s" "demo" "HotkeysDemo" "editor" "EditorScope").
  reflexivity.
Defined.

(** ** The calls made on the hotkeys library *)

Module HotkeysFacts.
Import Hotkeys MapFacts TableMore.

Lemma lastIsBind_app (c1 c2 : list Call) (k sc : string) (b : bool) :
  lastIsBind (c1 ++ c2) k sc b = lastIsBind c2 k sc (lastIsBind c1 k sc b).
Proof.
  revert b. induction c1 as [|c c1 IH]; intros b; simpl; [reflexivity|].
  destruct c as [s|k' sc' h|k' sc'|s]; simpl; try apply IH;
    destruct (String.eqb k' k && String.eqb sc' sc); apply IH.
Qed.

Lemma existsb_eqb_In (x : string) (l : list string) :
  existsb (String.eqb x) l = true <-> In x l.
Proof.
  rewrite existsb_exists. split.
  - intros (y & Hy & E). apply String.eqb_eq in E. now subst.
  - intros H. exists x. split; [assumption | apply String.eqb_refl].
Qed.

(** Unbinding a list of keys in a scope closes exactly these keys there. *)
Lemma lastIsBind_unbinds (keys : list string) (scope k sc : string) (b : bool) :
  lastIsBind (map (fun x => Unbind x scope) keys) k sc b =
  if String.eqb scope sc && existsb (String.eqb k) keys then false else b.
Proof.
  revert b. induction keys as [|x keys IH]; intros b; simpl.
  - now rewrite andb_false_r.
  - rewrite !IH. rewrite (String.eqb_sym k x).
    destruct (String.eqb scope sc), (String.eqb x k),
      (existsb (String.eqb k) keys); reflexivity.
Qed.

(** Binding the entries of a config in a scope opens exactly its keys there. *)
Lemma lastIsBind_binds (config : list (string * Handler)) (scope k sc : string)
      (b : bool) :
  lastIsBind (map (fun kh => Bind (fst kh) scope (snd kh)) config) k sc b =
  if String.eqb scope sc && existsb (String.eqb k) (map fst config)
  then true else b.
Proof.
  revert b. induction config as [|[x h] config IH]; intros b; simpl.
  - now rewrite andb_false_r.
  - rewrite !IH. rewrite (String.eqb_sym k x).
    destruct (String.eqb scope sc), (String.eqb x k),
      (existsb (String.eqb k) (map fst config)); reflexivity.
Qed.

Lemma JsSet_add_In (s : JsSet.t) (x y : string) :
  In y (JsSet.add s x) <-> In y s \/ y = x.
Proof.
  unfold JsSet.add, JsSet.has.
  destruct (existsb (String.eqb x) s) eqn:E.
  - apply existsb_eqb_In in E. split; [auto | intros [H| ->]; auto].
  - rewrite in_app_iff. simpl. intuition.
Qed.

End HotkeysFacts.

Module VariantFacts.
Import Hotkeys HotkeysVariant HotkeysFacts.

(** [bindShortcuts] in closed form: the keys bound so far are unbound in
    the current scope, then the entries of the config are bound there, and
    the bound keys are those of the config. *)
Lemma bindShortcuts_calls (config : list (string * Handler)) (st : State) :
  fst (bindShortcuts config st)
  = map (fun k => Unbind k (currentScope st)) (boundKeys st)
    ++ map (fun kh => Bind (fst kh) (currentScope st) (snd kh)) config
  /\ currentScope (snd (bindShortcuts config st)) = currentScope st
  /\ forall k, In k (boundKeys (snd (bindShortcuts config st)))
               <-> In k (map fst config).
Proof.
  unfold bindShortcuts.
  enough (G : forall acc,
             fst (fold_left bindOne config acc)
             = fst acc ++ map (fun kh => Bind (fst kh) (currentScope (snd acc)) (snd kh)) config
             /\ currentScope (snd (fold_left bindOne config acc)) = currentScope (snd acc)
             /\ forall k, In k (boundKeys (snd (fold_left bindOne config acc)))
                          <-> In k (boundKeys (snd acc)) \/ In k (map fst config)).
  { destruct (G (unbindAll st)) as (G1 & G2 & G3).
    split; [exact G1|]. split; [exact G2|].
    intros k. rewrite G3. simpl. tauto. }
  induction config as [|[x h] config IH]; intros acc; simpl.
  - rewrite app_nil_r. repeat split; auto. intros [H|[]]; exact H.
  - destruct (IH (bindOne acc (x, h))) as (I1 & I2 & I3).
    split; [rewrite I1; simpl; now rewrite <- app_assoc|].
    split; [rewrite I2; reflexivity|].
    intros k. rewrite I3. simpl. rewrite JsSet_add_In.
    intuition congruence.
Qed.

End VariantFacts.

Module LifeCycleFacts.
Import Hotkeys HotkeysVariant HotkeysFacts VariantFacts.

(** A binding that the calls made so far leave open is a binding of a bound
    key in the current scope; [bindShortcuts] and [unbindAll] keep it so. *)
Lemma bindShortcuts_tracked (calls : list Call) (st : State)
      (config : list (string * Handler)) :
  (forall k sc, leftBound calls k sc = true ->
                sc = currentScope st /\ In k (boundKeys st)) ->
  forall k sc,
    leftBound (calls ++ fst (bindShortcuts config st)) k sc = true ->
    sc = currentScope (snd (bindShortcuts config st))
    /\ In k (boundKeys (snd (bindShortcuts config st))).
Proof.
  intros Inv k sc. destruct (bindShortcuts_calls config st) as (-> & -> & Hkeys).
  unfold leftBound in *. rewrite !lastIsBind_app, lastIsBind_binds, lastIsBind_unbinds.
  destruct (String.eqb_spec (currentScope st) sc) as [<-|Hsc]; simpl.
  - destruct (existsb (String.eqb k) (map fst config)) eqn:Ec.
    + intros _. split; [reflexivity|]. apply Hkeys. now apply existsb_eqb_In.
    + destruct (existsb (String.eqb k) (boundKeys st)) eqn:Eb; [discriminate|].
      intros H. destruct (Inv _ _ H) as [_ Hin].
      apply existsb_eqb_In in Hin. congruence.
  - intros H. destruct (Inv _ _ H) as [E _]. congruence.
Qed.

Lemma unbindAll_closes (calls : list Call) (st : State) :
  (forall k sc, leftBound calls k sc = true ->
                sc = currentScope st /\ In k (boundKeys st)) ->
  forall k sc, leftBound (calls ++ fst (unbindAll st)) k sc = false.
Proof.
  intros Inv k sc. unfold leftBound in *. cbn [unbindAll fst].
  rewrite lastIsBind_app, lastIsBind_unbinds.
  destruct (lastIsBind calls k sc false) eqn:B.
  - destruct (Inv _ _ B) as [-> Hin]. apply existsb_eqb_In in Hin.
    now rewrite String.eqb_refl, Hin.
  - now destruct (_ && _).
Qed.

Lemma apply_tracked (acc : list Call * State) (op : Op) :
  (forall sc c, op <> ChangeScope sc c) ->
  (forall k sc, leftBound (fst acc) k sc = true ->
                sc = currentScope (snd acc) /\ In k (boundKeys (snd acc))) ->
  forall k sc, leftBound (fst (apply acc op)) k sc = true ->
               sc = currentScope (snd (apply acc op))
               /\ In k (boundKeys (snd (apply acc op))).
Proof.
  intros Hop Inv k sc. destruct op as [config|newScope config|]; cbn [apply fst snd].
  - now apply bindShortcuts_tracked.
  - exfalso. now apply (Hop newScope config).
  - intros H. rewrite (unbindAll_closes _ _ Inv) in H. discriminate.
Qed.

(** Calls that bind and unbind in another scope leave a binding as it is. *)
Lemma other_scope_untouched (acc : list Call * State) (op : Op) (k sc : string) :
  (forall s c, op <> ChangeScope s c) ->
  currentScope (snd acc) <> sc ->
  currentScope (snd (apply acc op)) = currentScope (snd acc)
  /\ leftBound (fst (apply acc op)) k sc = leftBound (fst acc) k sc.
Proof.
  intros Hop Hsc. apply String.eqb_neq in Hsc. unfold leftBound.
  destruct op as [config|newScope config|]; cbn [apply fst snd].
  - destruct (bindShortcuts_calls config (snd acc)) as (-> & -> & _).
    split; [reflexivity|].
    now rewrite !lastIsBind_app, lastIsBind_binds, lastIsBind_unbinds, Hsc.
  - exfalso. now apply (Hop newScope config).
  - cbn [unbindAll fst snd currentScope]. split; [reflexivity|].
    now rewrite lastIsBind_app, lastIsBind_unbinds, Hsc.
Qed.

End LifeCycleFacts.

Import Hotkeys HotkeysFacts VariantFacts LifeCycleFacts.

(** X16: with [disableOnInputs] set, no custom filter can let a shortcut
    through while the event comes from a text field: the installed filter
    rejects every event whose target is an [INPUT], a [TEXTAREA] or a
    content-editable element, and where it accepts an event the filter
    without the custom part accepts it too and the custom filter holds. *)
Theorem custom_filter_only_restricts :
  forall (Event : Type) (target : Event -> option Element)
         (custom : Event -> bool) (e : Event) (el : Element),
    target e = Some el ->
    ((tagName el = "INPUT" \/ tagName el = "TEXTAREA"
      \/ isContentEditable el = true) ->
     HotkeysVariant.inputsFilter target (Some custom) e = Some false
     /\ HotkeysVariant.inputsFilter target None e = Some false)
    /\ (HotkeysVariant.inputsFilter target (Some custom) e = Some true ->
        HotkeysVariant.inputsFilter target None e = Some true
        /\ custom e = true).
Proof.
  intros Event target custom e el Ht. unfold HotkeysVariant.inputsFilter.
  rewrite Ht. split.
  - intros [-> | [-> | ->]]; simpl; rewrite ?orb_true_r; auto.
  - intros [= H]. apply andb_true_iff in H as [-> ->]. auto.
Qed.

Lemma custom_filter_only_restricts_witness :
  let target (e : Element) := Some e in
  let allowAll (_ : Element) := true in
  HotkeysVariant.inputsFilter target (Some allowAll)
    {| tagName := "DIV"; isContentEditable := true |} = Some false
  /\ HotkeysVariant.inputsFilter target None
       {| tagName := "BUTTON"; isContentEditable := false |} = Some true.
Proof.
  intros target allowAll. split.
  - apply (proj1 (custom_filter_only_restricts Element target allowAll
                    {| tagName := "DIV"; isContentEditable := true |}
                    _ eq_refl)).
    right; right; reflexivity.
  - apply (proj2 (custom_filter_only_restricts Element target allowAll
                    {| tagName := "BUTTON"; isContentEditable := false |}
                    _ eq_refl)).
    reflexivity.
Defined.

(** X17: a component that never changes its scope cleans up after itself:
    whatever configs it binds while mounted, after the unmount hook no key
    is left bound in any scope. *)
Theorem unmount_unbinds_everything :
  forall (scope : string) (config : list (string * Handler))
         (ops : list HotkeysVariant.Op),
    Forall (fun op => forall sc c, op <> HotkeysVariant.ChangeScope sc c) ops ->
    forall k sc,
      leftBound (fst (HotkeysVariant.lifeCycle scope config ops)) k sc = false.
Proof.
  intros scope config ops Hops k sc. unfold HotkeysVariant.lifeCycle.
  cbn [HotkeysVariant.apply fst].
  apply unbindAll_closes. clear k sc.
  assert (Hmount : forall k sc,
             leftBound (fst (HotkeysVariant.mount scope config)) k sc = true ->
             sc = HotkeysVariant.currentScope (snd (HotkeysVariant.mount scope config))
             /\ In k (HotkeysVariant.boundKeys
                        (snd (HotkeysVariant.mount scope config)))).
  { intros k sc H. unfold HotkeysVariant.mount in *. cbn [fst snd] in *.
    apply (bindShortcuts_tracked [] (HotkeysVariant.initial scope) config);
      [intros k' sc' H'; discriminate | exact H]. }
  revert Hmount. generalize (HotkeysVariant.mount scope config).
  induction Hops as [|op ops Hop _ IH]; intros acc Hacc; [exact Hacc|].
  cbn [fold_left]. apply IH. now apply apply_tracked.
Qed.

Lemma unmount_unbinds_everything_witness :
  leftBound
    (fst (HotkeysVariant.lifeCycle "demo" [("ctrl+s", 1); ("f1", 2)]
            [HotkeysVariant.Rebind [("f2", 3)]])) "ctrl+s" "demo" = false.
Proof.
  apply (unmount_unbinds_everything "demo" [("ctrl+s", 1); ("f1", 2)]
           [HotkeysVariant.Rebind [("f2", 3)]]).
  repeat constructor; discriminate.
Defined.

(** X18: [changeScope] leaves the bindings of the scope it quits in place.
    It unbinds the bound keys in the new scope, not in the old one, so a
    key of the config bound at mount time is still bound in the old scope
    after the scope was changed, whatever is bound or unbound later in the
    new scope, even after the unmount hook. *)
Theorem changeScope_leaks_old_bindings :
  forall (scope newScope : string) (config config' : list (string * Handler))
         (ops : list HotkeysVariant.Op) (k : string) (h : Handler),
    scope <> newScope ->
    In (k, h) config ->
    Forall (fun op => forall sc c, op <> HotkeysVariant.ChangeScope sc c) ops ->
    leftBound
      (fst (HotkeysVariant.lifeCycle scope config
              (HotkeysVariant.ChangeScope newScope config' :: ops)))
      k scope = true.
Proof.
  intros scope newScope config config' ops k h Hne Hin Hops.
  unfold HotkeysVariant.lifeCycle. cbn [fold_left].
  set (acc1 := HotkeysVariant.apply (HotkeysVariant.mount scope config)
                 (HotkeysVariant.ChangeScope newScope config')).
  assert (H1 : HotkeysVariant.currentScope (snd acc1) = newScope
               /\ leftBound (fst acc1) k scope = true).
  { unfold acc1, HotkeysVariant.mount, HotkeysVariant.changeScope,
      HotkeysVariant.apply. cbn [fst snd HotkeysVariant.changeScope].
    destruct (bindShortcuts_calls config (HotkeysVariant.initial scope))
      as (E1 & E2 & E3).
    destruct (bindShortcuts_calls config'
                {| HotkeysVariant.currentScope := newScope;
                   HotkeysVariant.boundKeys :=
                     HotkeysVariant.boundKeys
                       (snd (HotkeysVariant.bindShortcuts config
                               (HotkeysVariant.initial scope))) |})
      as (F1 & F2 & F3).
    split; [exact F2|].
    rewrite F1, E1. unfold leftBound. cbn [HotkeysVariant.currentScope
      HotkeysVariant.boundKeys HotkeysVariant.initial JsSet.empty map app].
    cbn [lastIsBind]. rewrite !lastIsBind_app. cbn [lastIsBind].
    rewrite !lastIsBind_app, !lastIsBind_binds, !lastIsBind_unbinds.
    apply not_eq_sym in Hne. apply String.eqb_neq in Hne. rewrite Hne.
    rewrite String.eqb_refl. cbn [andb].
    assert (Hk : existsb (String.eqb k) (map fst config) = true).
    { apply existsb_eqb_In. apply in_map_iff. now exists (k, h). }
    now rewrite Hk. }
  assert (G : forall ops acc,
             Forall (fun op => forall sc c, op <> HotkeysVariant.ChangeScope sc c) ops ->
             HotkeysVariant.currentScope (snd acc) = newScope
             /\ leftBound (fst acc) k scope = true ->
             HotkeysVariant.currentScope
               (snd (fold_left HotkeysVariant.apply ops acc)) = newScope
             /\ leftBound (fst (fold_left HotkeysVariant.apply ops acc)) k scope = true).
  { clear - Hne. intros ops acc Hops. revert acc.
    induction Hops as [|op ops Hop _ IH]; intros acc [Hs Hb]; [now split|].
    cbn [fold_left]. apply IH.
    destruct (other_scope_untouched acc op k scope Hop) as [E1 E2];
      [congruence|].
    rewrite E1, E2. now split. }
  destruct (G ops acc1 Hops H1) as [Hs Hb].
  destruct (other_scope_untouched (fold_left HotkeysVariant.apply ops acc1)
              HotkeysVariant.UnbindAll k scope) as [_ E];
    [discriminate | congruence |].
  now rewrite E.
Qed.

Lemma changeScope_leaks_old_bindings_witness :
  leftBound
    (fst (HotkeysVariant.lifeCycle "demo" [("ctrl+s", 1)]
            [HotkeysVariant.ChangeScope "editor" [("ctrl+s", 1)]]))
    "ctrl+s" "demo" = true.
Proof.
  apply (changeScope_leaks_old_bindings "demo" "editor" [("ctrl+s", 1)]
           [("ctrl+s", 1)] [] "ctrl+s" 1).
  - discriminate.
  - left; reflexivity.
  - constructor.
Defined.

Module ScopedFacts.
Import Hotkeys ScopedHotkeys HotkeysFacts MapFacts TableMore.

Section Manager.
Variable scopeName : string.

(** The table mirrors the library: a key is in the table exactly when the
    calls made so far leave it bound in the manager's scope; the keys of
    the table are distinct; nothing is bound in another scope. *)
Lemma apply_mirror (acc : list Call * t) (op : Op) :
  (NoDup (JsMap.keys (snd acc))
   /\ (forall k, leftBound (fst acc) k scopeName = true
                 <-> In k (JsMap.keys (snd acc)))
   /\ (forall k sc, sc <> scopeName -> leftBound (fst acc) k sc = false)) ->
  NoDup (JsMap.keys (snd (apply scopeName acc op)))
  /\ (forall k, leftBound (fst (apply scopeName acc op)) k scopeName = true
                <-> In k (JsMap.keys (snd (apply scopeName acc op))))
  /\ (forall k sc, sc <> scopeName ->
                   leftBound (fst (apply scopeName acc op)) k sc = false).
Proof.
  intros (Hnd & Hm & Ho). unfold leftBound in *.
  destruct op as [k0 h|k0| |]; cbn [apply bind unbind activate deactivate fst snd].
  - split; [now apply NoDup_keys_set|]. split.
    + intros k. rewrite lastIsBind_app. cbn [lastIsBind].
      rewrite String.eqb_refl, andb_true_r, In_keys_get.
      destruct (String.eqb_spec k0 k) as [->|Hk].
      * rewrite get_set_same. split; [discriminate | reflexivity].
      * rewrite get_set_other by assumption. rewrite <- In_keys_get. apply Hm.
    + intros k sc Hsc. rewrite lastIsBind_app. cbn [lastIsBind].
      apply not_eq_sym in Hsc. apply String.eqb_neq in Hsc.
      rewrite Hsc, andb_false_r. apply Ho. apply String.eqb_neq in Hsc. congruence.
  - split; [now apply NoDup_keys_delete|]. split.
    + intros k. rewrite lastIsBind_app. cbn [lastIsBind].
      rewrite String.eqb_refl, andb_true_r, In_keys_get.
      destruct (String.eqb_spec k0 k) as [->|Hk].
      * rewrite get_delete_same. split; [discriminate | congruence].
      * rewrite get_delete_other by assumption. rewrite <- In_keys_get. apply Hm.
    + intros k sc Hsc. rewrite lastIsBind_app. cbn [lastIsBind].
      apply not_eq_sym in Hsc. apply String.eqb_neq in Hsc.
      rewrite Hsc, andb_false_r. apply Ho. apply String.eqb_neq in Hsc. congruence.
  - split; [assumption|]. split.
    + intros k. rewrite lastIsBind_app. apply Hm.
    + intros k sc Hsc. rewrite lastIsBind_app. now apply Ho.
  - split; [assumption|]. split.
    + intros k. rewrite lastIsBind_app. apply Hm.
    + intros k sc Hsc. rewrite lastIsBind_app. now apply Ho.
Qed.

Lemma after_mirror (ops : list Op) :
  NoDup (JsMap.keys (snd (after scopeName ops)))
  /\ (forall k, leftBound (fst (after scopeName ops)) k scopeName = true
                <-> In k (JsMap.keys (snd (after scopeName ops))))
  /\ (forall k sc, sc <> scopeName ->
                   leftBound (fst (after scopeName ops)) k sc = false).
Proof.
  unfold after.
  assert (H0 : NoDup (JsMap.keys (snd (([] : list Call), create)))
               /\ (forall k, leftBound (fst (([] : list Call), create)) k scopeName = true
                             <-> In k (JsMap.keys (snd (([] : list Call), create))))
               /\ (forall k sc, sc <> scopeName ->
                                leftBound (fst (([] : list Call), create)) k sc = false)).
  { simpl. repeat split; try constructor; try discriminate; try contradiction. }
  revert H0. generalize (([] : list Call), create).
  induction ops as [|op ops IH]; intros acc H; [exact H|].
  cbn [fold_left]. apply IH. now apply apply_mirror.
Qed.

End Manager.
End ScopedFacts.

Import ScopedFacts.

(** X19: the table of a scoped manager mirrors the library.  After any
    history of [bind], [unbind], [activate] and [deactivate], [getShortcuts]
    lists, without repetition, exactly the keys that the calls made on the
    library leave bound in the manager's scope. *)
Theorem scoped_table_mirrors_bindings :
  forall (scopeName : string) (ops : list ScopedHotkeys.Op),
    let r := ScopedHotkeys.after scopeName ops in
    NoDup (ScopedHotkeys.getShortcuts (snd r))
    /\ forall k, In k (ScopedHotkeys.getShortcuts (snd r))
                 <-> leftBound (fst r) k scopeName = true.
Proof.
  intros scopeName ops r.
  destruct (after_mirror scopeName ops) as (Hnd & Hm & _).
  split; [exact Hnd|]. intros k. symmetry. apply Hm.
Qed.

(** X20: [destroy] cleans up: after any history of operations followed by
    [destroy], no key is left bound in any scope, the table is empty, and
    the last call deletes the scope. *)
Theorem scoped_destroy_unbinds_everything :
  forall (scopeName : string) (ops : list ScopedHotkeys.Op),
    let r := ScopedHotkeys.lifeCycle scopeName ops in
    (forall k sc, leftBound (fst r) k sc = false)
    /\ ScopedHotkeys.getShortcuts (snd r) = []
    /\ last (fst r) (SetScope "") = DeleteScope scopeName.
Proof.
  intros scopeName ops r. subst r. unfold ScopedHotkeys.lifeCycle.
  cbn [ScopedHotkeys.destroy fst snd].
  destruct (after_mirror scopeName ops) as (Hnd & Hm & Ho).
  split; [|split].
  - intros k sc. unfold leftBound in *.
    rewrite !lastIsBind_app. cbn [lastIsBind].
    unfold JsMap.entries. rewrite <- (map_map fst (fun x => Unbind x scopeName)).
    rewrite lastIsBind_unbinds.
    destruct (lastIsBind (fst (ScopedHotkeys.after scopeName ops)) k sc false) eqn:B;
      [|now destruct (_ && _)].
    destruct (String.eqb_spec scopeName sc) as [<-|Hsc].
    + apply Hm in B. apply existsb_eqb_In in B. unfold JsMap.keys in B.
      now rewrite B.
    + rewrite Ho in B by congruence. discriminate.
  - reflexivity.
  - rewrite app_assoc. apply last_last.
Qed.

(** ** The key sequence detector *)

Module SequenceFacts.
Import JsString StringFacts KeySequenceDetector.

Lemma calls_none (fired : list bool) :
  Forall (fun b => b = false) fired -> calls fired = 0.
Proof.
  unfold calls. induction 1 as [|b l Hb _ IH]; [reflexivity|].
  subst b. simpl. exact IH.
Qed.

Lemma calls_app (l1 l2 : list bool) : calls (l1 ++ l2) = calls l1 + calls l2.
Proof. unfold calls. apply count_occ_app. Qed.

Lemma calls_repeat_false (n : nat) : calls (repeat false n) = 0.
Proof. apply calls_none. apply Forall_forall. intros b Hb. now apply repeat_spec in Hb. Qed.

Section Detector.
Variable sequence : list string.
Variable timeout : Z.
Variable reset : bool.

Lemma fireTimer_index (t : Z) (st : State) :
  fireTimer t st = st \/ fireTimer t st = initial.
Proof.
  unfold fireTimer. destruct (timer st) as [d|]; [|now left].
  destruct (d <=? t)%Z; [now right | now left].
Qed.

Lemma fireTimer_same (t : Z) (st : State) :
  fireTimer t (fireTimer t st) = fireTimer t st.
Proof.
  unfold fireTimer at 2 3. destruct (timer st) as [d|] eqn:T.
  - destruct (d <=? t)%Z eqn:E; [reflexivity|].
    unfold fireTimer. now rewrite T, E.
  - unfold fireTimer. now rewrite T.
Qed.

Lemma run_app (a b : list (Z * KeyboardEvent.t)) (st : State) :
  run sequence timeout reset (a ++ b) st
  = (fst (run sequence timeout reset a st)
     ++ fst (run sequence timeout reset b (snd (run sequence timeout reset a st))),
     snd (run sequence timeout reset b (snd (run sequence timeout reset a st)))).
Proof.
  revert st. induction a as [|[t e] a IH]; intros st; simpl.
  - now destruct (run sequence timeout reset b st).
  - now rewrite IH.
Qed.

(** One key press: the callback is called only by the key that completes
    the sequence; otherwise the index is reset or advanced by one with the
    timer armed anew. *)
Lemma handler_cases (t : Z) (e : KeyboardEvent.t) (st : State) :
  let r := handler sequence timeout reset t e st in
  (fst r = true /\ S (currentIndex st) = List.length sequence)
  \/ (fst r = false /\ snd r = initial)
  \/ (fst r = false /\ S (currentIndex st) < List.length sequence
      /\ snd r = {| currentIndex := S (currentIndex st);
                    timer := Some (t + timeout)%Z |}).
Proof.
  unfold handler, expects.
  destruct (nth_error sequence (currentIndex st)) as [x|] eqn:N;
    [|right; left; now split].
  destruct (String.eqb _ x); [|right; left; now split].
  destruct (Nat.eqb_spec (S (currentIndex st)) (List.length sequence)) as [E|E].
  - left. now split.
  - right; right. simpl. repeat split; auto.
    assert (currentIndex st < List.length sequence)
      by (apply nth_error_Some; congruence).
    lia.
Qed.

(** The callback needs as many keys as the sequence still lacks. *)
Lemma run_too_short (events : list (Z * KeyboardEvent.t)) :
  forall st,
    currentIndex st + List.length events < List.length sequence ->
    Forall (fun b => b = false) (fst (run sequence timeout reset events st)).
Proof.
  induction events as [|[t e] events IH]; intros st Hlen; simpl; [constructor|].
  simpl in Hlen. unfold deliver.
  assert (Hi : currentIndex (fireTimer t st) <= currentIndex st).
  { destruct (fireTimer_index t st) as [-> | ->]; simpl; lia. }
  destruct (handler_cases t e (fireTimer t st)) as [[_ E]|[[F S1]|(F & _ & S1)]].
  - lia.
  - constructor; [exact F|]. apply IH. rewrite S1. simpl. lia.
  - constructor; [exact F|]. apply IH. rewrite S1. simpl. lia.
Qed.

(** The keys of the rest of the sequence, each pressed in time, complete
    it: the callback is called once, by the last key. *)
Lemma run_completes (rest : list (Z * KeyboardEvent.t)) :
  forall (prefix suffix : list string) (t : Z) (e : KeyboardEvent.t) (st : State),
    sequence = prefix ++ suffix ->
    typed ((t, e) :: rest) = suffix ->
    currentIndex (fireTimer t st) = List.length prefix ->
    paced timeout t rest ->
    fst (run sequence timeout reset ((t, e) :: rest) st)
    = repeat false (List.length rest) ++ [true]
    /\ (reset = true ->
        snd (run sequence timeout reset ((t, e) :: rest) st) = initial).
Proof.
  induction rest as [|[t2 e2] rest IH];
    intros prefix suffix t e st Hseq Htyped Hidx Hpaced.
  - cbn [typed map snd] in Htyped. subst suffix.
    cbn [run fst snd repeat app List.length]. unfold deliver, handler, expects.
    rewrite Hidx, Hseq, nth_error_app2, Nat.sub_diag by lia. cbn [nth_error].
    rewrite String.eqb_refl, length_app. cbn [List.length].
    replace (List.length prefix + 1) with (S (List.length prefix)) by lia.
    rewrite Nat.eqb_refl. split; [reflexivity|]. now intros ->.
  - cbn [typed map snd] in Htyped. destruct suffix as [|x suffix]; [discriminate|].
    injection Htyped as Hx Htyped. destruct Hpaced as [Ht2 Hpaced].
    assert (Hstep : deliver sequence timeout reset t e st
                    = (false, {| currentIndex := S (List.length prefix);
                                 timer := Some (t + timeout)%Z |})).
    { unfold deliver, handler, expects.
      rewrite Hidx, Hseq, nth_error_app2, Nat.sub_diag by lia. cbn [nth_error].
      rewrite Hx, String.eqb_refl, length_app.
      destruct suffix as [|x2 suffix]; [discriminate|]. cbn [List.length].
      destruct (Nat.eqb_spec (S (List.length prefix))
                  (List.length prefix + S (S (List.length suffix)))); [lia|].
      reflexivity. }
    change (run sequence timeout reset ((t, e) :: (t2, e2) :: rest) st)
      with (let r := deliver sequence timeout reset t e st in
            let r' := run sequence timeout reset ((t2, e2) :: rest) (snd r) in
            (fst r :: fst r', snd r')).
    rewrite Hstep. cbn zeta. cbn [fst snd].
    destruct (IH (prefix ++ [x]) suffix t2 e2
                {| currentIndex := S (List.length prefix);
                   timer := Some (t + timeout)%Z |}) as [IH1 IH2]; auto.
    + now rewrite Hseq, <- app_assoc.
    + unfold fireTimer. cbn [KeySequenceDetector.timer].
      apply Z.leb_gt in Ht2. rewrite Ht2. cbn [currentIndex].
      rewrite length_app. simpl. lia.
    + rewrite IH1. split; [reflexivity | exact IH2].
Qed.

(** An element that is not in lower case stops the progress. *)
Lemma run_blocked (prefix suffix : list string) (x : string)
      (events : list (Z * KeyboardEvent.t)) :
  sequence = prefix ++ x :: suffix ->
  toLowerCase x <> x ->
  forall st,
    currentIndex st <= List.length prefix ->
    Forall (fun b => b = false) (fst (run sequence timeout reset events st)).
Proof.
  intros Hseq Hx. induction events as [|[t e] events IH]; intros st Hi; simpl;
    [constructor|].
  assert (Hi0 : currentIndex (fireTimer t st) <= List.length prefix).
  { destruct (fireTimer_index t st) as [-> | ->]; simpl; lia. }
  unfold deliver.
  assert (Hlen : List.length sequence = List.length prefix + S (List.length suffix))
    by (rewrite Hseq, length_app; reflexivity).
  destruct (Nat.eq_dec (currentIndex (fireTimer t st)) (List.length prefix))
    as [E|E].
  - assert (Hh : handler sequence timeout reset t e (fireTimer t st)
                 = (false, initial)).
    { unfold handler, expects.
      rewrite E, Hseq, nth_error_app2, Nat.sub_diag by lia. cbn [nth_error].
      destruct (String.eqb_spec (toLowerCase (KeyboardEvent.key e)) x) as [Ek|Ek];
        [|reflexivity].
      exfalso. apply Hx. rewrite <- Ek. apply toLowerCase_idem. }
    rewrite Hh. constructor; [reflexivity|]. apply IH. simpl. lia.
  - destruct (handler_cases t e (fireTimer t st))
      as [[_ E']|[[F S1]|(F & Hlt & S1)]].
    + lia.
    + constructor; [exact F|]. apply IH. rewrite S1. simpl. lia.
    + constructor; [exact F|]. apply IH. rewrite S1. cbn [currentIndex]. lia.
Qed.

End Detector.
End SequenceFacts.

Import SequenceFacts.

(** X21: typing the sequence fires the callback.  When the index is 0 and
    the keys of the sequence are pressed in order, each less than [timeout]
    after the one before, the callback is called exactly once, by the last
    key; with [reset] set the detector is then back in its initial state. *)
Theorem sequence_typed_in_time_fires_once :
  forall (sequence : list string) (timeout : Z) (reset : bool)
         (t : Z) (e : KeyboardEvent.t) (rest : list (Z * KeyboardEvent.t))
         (st : KeySequenceDetector.State),
    KeySequenceDetector.typed ((t, e) :: rest) = sequence ->
    KeySequenceDetector.currentIndex st = 0 ->
    KeySequenceDetector.paced timeout t rest ->
    let r := KeySequenceDetector.run sequence timeout reset ((t, e) :: rest) st in
    fst r = repeat false (List.length rest) ++ [true]
    /\ KeySequenceDetector.calls (fst r) = 1
    /\ (reset = true -> snd r = KeySequenceDetector.initial).
Proof.
  intros sequence timeout reset t e rest st Htyped Hidx Hpaced r.
  destruct (run_completes sequence timeout reset rest [] sequence t e st)
    as [H1 H2]; auto.
  { destruct (fireTimer_index t st) as [-> | ->]; auto. }
  fold r in H1, H2. split; [exact H1|]. split; [|exact H2].
  rewrite H1, calls_app, calls_repeat_false. reflexivity.
Qed.

Lemma sequence_typed_in_time_fires_once_witness :
  KeySequenceDetector.calls
    (fst (KeySequenceDetector.run ["h"; "e"; "l"; "p"] 1500 true
            [(0%Z, press "h"); (400%Z, press "E"); (900%Z, press "l");
             (2000%Z, press "p")]
            KeySequenceDetector.initial)) = 1.
Proof.
  apply (sequence_typed_in_time_fires_once ["h"; "e"; "l"; "p"] 1500%Z true
           0%Z (press "h")
           [(400%Z, press "E"); (900%Z, press "l"); (2000%Z, press "p")]
           KeySequenceDetector.initial).
  - reflexivity.
  - reflexivity.
  - simpl. lia.
Defined.

(** X22: the elements of the sequence are compared with lowercased keys as
    they are, so a sequence that holds an element that is not in lower case
    can never be completed: the callback is never called. *)
Theorem sequence_with_uppercase_never_fires :
  forall (sequence : list string) (timeout : Z) (reset : bool) (x : string)
         (events : list (Z * KeyboardEvent.t)),
    In x sequence ->
    JsString.toLowerCase x <> x ->
    KeySequenceDetector.calls
      (fst (KeySequenceDetector.run sequence timeout reset events
              KeySequenceDetector.initial)) = 0.
Proof.
  intros sequence timeout reset x events Hin Hx.
  apply in_split in Hin as (prefix & suffix & Hseq).
  apply calls_none.
  apply (run_blocked sequence timeout reset prefix suffix x events Hseq Hx).
  simpl. lia.
Qed.

Lemma sequence_with_uppercase_never_fires_witness :
  KeySequenceDetector.calls
    (fst (KeySequenceDetector.run ["ArrowUp"; "a"] 1000 true
            [(0%Z, press "ArrowUp"); (100%Z, press "a")]
            KeySequenceDetector.initial)) = 0.
Proof.
  apply (sequence_with_uppercase_never_fires ["ArrowUp"; "a"] 1000%Z true
           "ArrowUp").
  - left; reflexivity.
  - discriminate.
Defined.

(** X23: the callback needs a whole sequence: a stream of fewer keys than
    the sequence has, from the initial state, never calls it; and no stream
    at all calls the callback of an empty sequence. *)
Theorem sequence_needs_all_its_keys :
  forall (sequence : list string) (timeout : Z) (reset : bool)
         (events : list (Z * KeyboardEvent.t)),
    (List.length events < List.length sequence ->
     KeySequenceDetector.calls
       (fst (KeySequenceDetector.run sequence timeout reset events
               KeySequenceDetector.initial)) = 0)
    /\ KeySequenceDetector.calls
         (fst (KeySequenceDetector.run [] timeout reset events
                 KeySequenceDetector.initial)) = 0.
Proof.
  intros sequence timeout reset events. split.
  - intros Hlen. apply calls_none. apply run_too_short. simpl. lia.
  - apply calls_none. generalize KeySequenceDetector.initial.
    induction events as [|[t e] events IH]; intros st; simpl; [constructor|].
    unfold KeySequenceDetector.deliver, KeySequenceDetector.handler,
      KeySequenceDetector.expects.
    destruct (KeySequenceDetector.currentIndex _); simpl;
      (constructor; [reflexivity | apply IH]).
Qed.

Lemma sequence_needs_all_its_keys_witness :
  KeySequenceDetector.calls
    (fst (KeySequenceDetector.run ["h"; "e"; "l"; "p"] 1500 true
            [(0%Z, press "h"); (10%Z, press "e"); (20%Z, press "l")]
            KeySequenceDetector.initial)) = 0.
Proof.
  apply (proj1 (sequence_needs_all_its_keys ["h"; "e"; "l"; "p"] 1500%Z true
                  [(0%Z, press "h"); (10%Z, press "e"); (20%Z, press "l")])).
  simpl. lia.
Defined.

(** X24: a pause forgets what was typed.  When a key comes [timeout] or
    more after the key before it, the keys before the pause do not count:
    if fewer keys than the sequence has were pressed before the pause, and
    fewer from the pause on, the callback is not called; so the sequence
    typed with such a pause in the middle does not fire. *)
Theorem sequence_pause_resets_progress :
  forall (sequence : list string) (timeout : Z) (reset : bool)
         (before rest : list (Z * KeyboardEvent.t))
         (tlast t : Z) (elast e : KeyboardEvent.t),
    List.length before + 1 < List.length sequence ->
    List.length rest + 1 < List.length sequence ->
    (tlast + timeout <= t)%Z ->
    KeySequenceDetector.calls
      (fst (KeySequenceDetector.run sequence timeout reset
              (before ++ (tlast, elast) :: (t, e) :: rest)
              KeySequenceDetector.initial)) = 0.
Proof.
  intros sequence timeout reset before rest tlast t elast e Hb Hr Hpause.
  apply calls_none.
  change (before ++ (tlast, elast) :: (t, e) :: rest)
    with (before ++ [(tlast, elast)] ++ (t, e) :: rest).
  rewrite app_assoc, run_app. cbn [fst].
  apply Forall_app. split.
  - apply run_too_short. rewrite length_app. simpl. lia.
  - set (st1 := snd (KeySequenceDetector.run sequence timeout reset
                       (before ++ [(tlast, elast)]) KeySequenceDetector.initial)).
    assert (H1 : KeySequenceDetector.fireTimer t st1 = KeySequenceDetector.initial).
    { unfold st1. rewrite run_app. cbn [snd KeySequenceDetector.run].
      unfold KeySequenceDetector.deliver.
      destruct (handler_cases sequence timeout reset tlast elast
                  (KeySequenceDetector.fireTimer tlast
                     (snd (KeySequenceDetector.run sequence timeout reset before
                             KeySequenceDetector.initial))))
        as [[F E]|[[F S1]|(F & _ & S1)]].
      - exfalso.
        pose proof (run_too_short sequence timeout reset
                      (before ++ [(tlast, elast)]) KeySequenceDetector.initial) as T.
        rewrite run_app in T. cbn [fst KeySequenceDetector.run] in T.
        unfold KeySequenceDetector.deliver in T. rewrite F in T.
        assert (T' : Forall (fun b => b = false)
                       (fst (KeySequenceDetector.run sequence timeout reset before
                               KeySequenceDetector.initial) ++ [true])).
        { apply T. rewrite length_app. simpl. lia. }
        apply Forall_app in T' as [_ T']. inversion T'; discriminate.
      - rewrite S1. reflexivity.
      - rewrite S1. unfold KeySequenceDetector.fireTimer.
        cbn [KeySequenceDetector.timer].
        apply Z.leb_le in Hpause. now rewrite Hpause. }
    cbn [KeySequenceDetector.run fst]. unfold KeySequenceDetector.deliver.
    rewrite H1.
    pose proof (run_too_short sequence timeout reset ((t, e) :: rest)
                  KeySequenceDetector.initial) as T.
    cbn [KeySequenceDetector.run fst] in T.
    unfold KeySequenceDetector.deliver in T.
    replace (KeySequenceDetector.fireTimer t KeySequenceDetector.initial)
      with KeySequenceDetector.initial in T by reflexivity.
    apply T. simpl. lia.
Qed.

Lemma sequence_pause_resets_progress_witness :
  KeySequenceDetector.calls
    (fst (KeySequenceDetector.run ["h"; "e"; "l"; "p"] 1500 true
            ([(0%Z, press "h")] ++ (100%Z, press "e") :: (1600%Z, press "l")
               :: [(1700%Z, press "p")])
            KeySequenceDetector.initial)) = 0.
Proof.
  apply (sequence_pause_resets_progress ["h"; "e"; "l"; "p"] 1500%Z true
           [(0%Z, press "h")] [(1700%Z, press "p")] 100%Z 1600%Z
           (press "e") (press "l")); simpl; lia.
Defined.

(** ** The call location and the logs of the pages *)

Module MiscFacts.
Import JsString StringFacts.

(** What occurs in a part of a string occurs in the string. *)
Lemma includes_part (l m r x : string) :
  includes m x = true -> includes (l ++ m ++ r) x = true.
Proof.
  intros H. apply includes_split in H as (a & b & ->).
  replace (l ++ (a ++ x ++ b) ++ r)%string
    with ((l ++ a) ++ x ++ (b ++ r))%string
    by now rewrite !append_assoc.
  apply includes_append.
Qed.

Lemma trimStart_suffix (s : string) : exists l, s = (l ++ trimStart s)%string.
Proof.
  induction s as [|c s [l IH]]; simpl.
  - now exists "".
  - destruct (isWhitespace c).
    + exists (String c l). simpl. now rewrite <- IH.
    + now exists "".
Qed.

Lemma trimEnd_prefix (s : string) : exists r, s = (trimEnd s ++ r)%string.
Proof.
  induction s as [|c s [r IH]]; simpl.
  - now exists "".
  - destruct (trimEnd s) as [|c' t] eqn:E.
    + destruct (isWhitespace c).
      * now exists (String c s).
      * exists s. reflexivity.
    + exists r. simpl. now rewrite IH at 1.
Qed.

Lemma stripAt_suffix (s : string) : exists l, s = (l ++ stripAt s)%string.
Proof.
  unfold stripAt.
  destruct s as [|a s]; [now exists ""|].
  destruct (Ascii.eqb_spec a "a") as [->|Ha].
  - destruct s as [|b s]; [now exists ""|].
    destruct (Ascii.eqb_spec b "t") as [->|Hb].
    + destruct s as [|c s]; [now exists ""|].
      destruct (isWhitespace c); [|now exists ""].
      destruct (trimStart_suffix s) as [l Hl].
      exists (String "a" (String "t" (String c l))). simpl. now rewrite <- Hl.
    + exists "".
      destruct b as [[] [] [] [] [] [] [] []]; try reflexivity; congruence.
  - exists "".
    destruct a as [[] [] [] [] [] [] [] []]; try reflexivity; congruence.
Qed.

(** The location shown for a line of the stack is a part of that line. *)
Lemma location_part (line : string) :
  exists l r, line = (l ++ stripAt (trim line) ++ r)%string.
Proof.
  destruct (trimStart_suffix line) as [l1 H1].
  destruct (trimEnd_prefix (trimStart line)) as [r1 H2].
  destruct (stripAt_suffix (trim line)) as [l2 H3].
  exists (l1 ++ l2)%string, r1. unfold trim in *.
  rewrite append_assoc, <- (append_assoc l2), <- H3, <- H2. exact H1.
Qed.

(** A list that is cut to its [n] first elements, given one more element
    in front and cut again by popping the last element when it is too
    long. *)
Lemma unshift_pop (n : nat) (x : string) (l : list string) :
  0 < n ->
  (if (n <? List.length (x :: firstn n l))%nat
   then removelast (x :: firstn n l) else x :: firstn n l)
  = firstn n (x :: l).
Proof.
  intros Hn. destruct n as [|m]; [lia|].
  destruct (Nat.ltb_spec (S m) (List.length (x :: firstn (S m) l))) as [H|H].
  - rewrite removelast_firstn_len.
    cbn [List.length] in H. rewrite length_firstn in H.
    assert (Hl : S m <= List.length l) by lia.
    change (pred (List.length (x :: firstn (S m) l)))
      with (List.length (firstn (S m) l)).
    rewrite length_firstn, Nat.min_l by exact Hl.
    change (firstn (S m) (x :: firstn (S m) l))
      with (x :: firstn m (firstn (S m) l)).
    change (firstn (S m) (x :: l)) with (x :: firstn m l).
    f_equal. rewrite firstn_firstn. f_equal. lia.
  - cbn [List.length] in H. rewrite length_firstn in H.
    assert (Hl : List.length l <= m) by lia.
    assert (E : firstn (S m) l = l) by (apply firstn_all2; lia).
    rewrite E.
    change (firstn (S m) (x :: l)) with (x :: firstn m l).
    f_equal. symmetry. apply firstn_all2. exact Hl.
Qed.

Lemma last_cons_default {A : Type} (x : A) (l : list A) (d : A) :
  last (x :: l) d = last l x.
Proof.
  revert x d. induction l as [|y l IH]; intros x d; [reflexivity|].
  change (last (x :: y :: l) d) with (last (y :: l) d).
  now rewrite (IH y d), (IH y x).
Qed.

End MiscFacts.

Import MiscFacts.

(** X25: the call location never names a frame of [defineShortcuts.ts]:
    whatever the stack, the result does not contain that file name; and
    without a stack, or with a stack of at most two lines, the result is
    [Unknown location]. *)
Theorem call_location_is_outside_this_file :
  forall stack : option string,
    includes (getCallLocation stack) "defineShortcuts.ts" = false
    /\ (match stack with
        | None => True
        | Some text => List.length (split "010" text) <= 2
        end ->
        getCallLocation stack = "Unknown location").
Proof.
  intros stack. split.
  - unfold getCallLocation. destruct stack as [text|]; [|reflexivity].
    destruct (String.eqb text ""); [reflexivity|].
    destruct (find outsideThisFile _) as [line|] eqn:F; [|reflexivity].
    apply find_some in F as [_ Hout]. unfold outsideThisFile in Hout.
    apply andb_true_iff in Hout as [_ Hout]. apply negb_true_iff in Hout.
    destruct (includes (stripAt (trim line)) "defineShortcuts.ts") eqn:I;
      [|reflexivity].
    destruct (location_part line) as (l & r & E).
    rewrite E, (includes_part l _ r _ I) in Hout. discriminate.
  - unfold getCallLocation. destruct stack as [text|]; [|reflexivity].
    intros Hlen. destruct (String.eqb text ""); [reflexivity|].
    destruct (split "010" text) as [|a [|b [|c l]]]; simpl in *;
      try reflexivity; lia.
Qed.

Lemma call_location_is_outside_this_file_witness :
  getCallLocation (Some "Error: Getting call stack") = "Unknown location".
Proof.
  apply (proj2 (call_location_is_outside_this_file
                  (Some "Error: Getting call stack"))).
  simpl. lia.
Defined.

(** X26: the hotkeys demo page shows the ten latest log lines, newest
    first: after any number of calls of [log] on an empty log, the list is
    the first ten of the lines logged, in reverse order, and the message is
    the text logged last. *)
Theorem log_keeps_ten_latest :
  forall (entries : list (string * string)) (message0 : string),
    let st := fold_left (fun st e => Pages.log st (fst e) (snd e)) entries
                {| Pages.logs := []; Pages.message := message0 |} in
    Pages.logs st = firstn 10 (rev (map Pages.line entries))
    /\ List.length (Pages.logs st) <= 10
    /\ Pages.message st = last (map snd entries) message0.
Proof.
  intros entries message0 st.
  assert (G : forall entries st0 shown,
             Pages.logs st0 = firstn 10 shown ->
             let st := fold_left (fun st e => Pages.log st (fst e) (snd e))
                         entries st0 in
             Pages.logs st = firstn 10 (rev (map Pages.line entries) ++ shown)
             /\ Pages.message st = last (map snd entries) (Pages.message st0)).
  { clear. induction entries as [|e entries IH]; intros st0 shown H0; simpl.
    - now split.
    - destruct (IH (Pages.log st0 (fst e) (snd e)) (Pages.line e :: shown))
        as [I1 I2].
      + unfold Pages.log. cbn [Pages.logs]. rewrite H0.
        apply (unshift_pop 10). lia.
      + rewrite I1, I2, <- app_assoc. split; [reflexivity|].
        cbn [Pages.log Pages.message]. symmetry. apply last_cons_default. }
  destruct (G entries {| Pages.logs := []; Pages.message := message0 |} [])
    as [G1 G2]; [reflexivity|].
  fold st in G1, G2. rewrite app_nil_r in G1.
  split; [exact G1|]. split; [|exact G2].
  rewrite G1, length_firstn. lia.
Qed.

(** X27: the index page shows the five latest actions, newest first, and
    the action triggered last. *)
Theorem addAction_keeps_five_latest :
  forall (entries : list (string * string)) (last0 : string),
    let st := fold_left (fun st e => Pages.addAction st (fst e) (snd e)) entries
                {| Pages.actions := []; Pages.lastTriggered := last0 |} in
    Pages.actions st = firstn 5 (rev (map Pages.line entries))
    /\ List.length (Pages.actions st) <= 5
    /\ Pages.lastTriggered st = last (map snd entries) last0.
Proof.
  intros entries last0 st.
  assert (G : forall entries st0 shown,
             Pages.actions st0 = firstn 5 shown ->
             let st := fold_left (fun st e => Pages.addAction st (fst e) (snd e))
                         entries st0 in
             Pages.actions st = firstn 5 (rev (map Pages.line entries) ++ shown)
             /\ Pages.lastTriggered st
                = last (map snd entries) (Pages.lastTriggered st0)).
  { clear. induction entries as [|e entries IH]; intros st0 shown H0; simpl.
    - now split.
    - destruct (IH (Pages.addAction st0 (fst e) (snd e)) (Pages.line e :: shown))
        as [I1 I2].
      + unfold Pages.addAction. cbn [Pages.actions]. rewrite H0.
        apply (unshift_pop 5). lia.
      + rewrite I1, I2, <- app_assoc. split; [reflexivity|].
        cbn [Pages.addAction Pages.lastTriggered]. symmetry.
        apply last_cons_default. }
  destruct (G entries {| Pages.actions := []; Pages.lastTriggered := last0 |} [])
    as [G1 G2]; [reflexivity|].
  fold st in G1, G2. rewrite app_nil_r in G1.
  split; [exact G1|]. split; [|exact G2].
  rewrite G1, length_firstn. lia.
Qed.
